(** * go-flake: k-ordered 64-bit identifier generator

    A shallow embedding of [flake.go].  Go's [uint64] values are modelled as
    [Z] with the wrap-around of every arithmetic operation written out; the
    generator is a record threaded through a small state monad whose
    outcomes also record the two ways a [sync.Mutex] can go wrong in a
    sequential caller (blocking forever, unlocking an unlocked mutex). *)

From Stdlib Require Import ZArith List Bool Lia String Ascii Sorted.
Import ListNotations.

Local Open Scope Z_scope.

(** ** Machine integers *)

Module U64.

Definition modulus : Z := 2 ^ 64.

Definition wrap (x : Z) : Z := x mod modulus.

(** [a + b], [a << n] on [uint64]: the result is truncated to 64 bits. *)
Definition add (a b : Z) : Z := wrap (a + b).
Definition sub (a b : Z) : Z := wrap (a - b).
Definition mul (a b : Z) : Z := wrap (a * b).
Definition shl (a n : Z) : Z := wrap (Z.shiftl a n).

Definition in_range (x : Z) : Prop := 0 <= x < modulus.

End U64.

(** [time.Duration] is an [int64] count of nanoseconds. *)
Definition Duration := Z.

Definition int64_range (d : Z) : Prop := - 2 ^ 63 <= d < 2 ^ 63.

(** ** Constants of the package *)

Definition HostBits : Z := 10.
Definition SequenceBits : Z := 13.

Definition MaxWorkerId : Z := Z.shiftl 1 HostBits - 1.
Definition MaxSequence : Z := Z.shiftl 1 SequenceBits - 1.

(** ** Identifiers *)

Definition Id := Z.

Definition Uint64 (id : Id) : Z := id.

(** ** The generator *)

Record Flake : Type := mkFlake {
  prevTime : Z;
  workerId : Z;
  sequence : Z;
  mu : bool  (* [true] while the mutex is held *)
}.

(** [getTimestamp]: the argument is the value [time.Since(Epoch)] has at the
    moment of the call.  The division is Go's truncating [int64] division and
    the conversion to [uint64] keeps the low 64 bits. *)
Definition getTimestamp (since : Duration) : Z :=
  U64.wrap (Z.quot since 1000000).

(** [New]: [since] is the clock reading taken by the call. *)
Definition New (since : Duration) (workerId : Z) : Flake :=
  {| sequence := 0;
     prevTime := getTimestamp since;
     workerId := workerId mod MaxWorkerId;
     mu := false |}.

(** *** Outcomes of a method call on a generator *)

Inductive outcome (A : Type) : Type :=
| Done (a : A) (f : Flake)   (* the call returned [a], leaving state [f] *)
| Blocked                    (* [Lock] on a mutex that is already held *)
| Fatal.                     (* [Unlock] of a mutex that is not held *)

Arguments Done {A} a f.
Arguments Blocked {A}.
Arguments Fatal {A}.

Definition M (A : Type) : Type := Flake -> outcome A.

Definition ret {A} (a : A) : M A := fun f => Done a f.

Definition bind {A B} (m : M A) (k : A -> M B) : M B :=
  fun f =>
    match m f with
    | Done a f' => k a f'
    | Blocked => Blocked
    | Fatal => Fatal
    end.

Declare Scope flake_scope.
Delimit Scope flake_scope with flake.

Notation "x <- m ;; k" := (bind m (fun x => k))
  (at level 61, m at next level, right associativity) : flake_scope.
Notation "m ;; k" := (bind m (fun _ => k))
  (at level 61, right associativity) : flake_scope.

Local Open Scope flake_scope.

Definition Lock : M unit :=
  fun f =>
    if mu f then Blocked
    else Done tt {| prevTime := prevTime f; workerId := workerId f;
                    sequence := sequence f; mu := true |}.

Definition Unlock : M unit :=
  fun f =>
    if mu f
    then Done tt {| prevTime := prevTime f; workerId := workerId f;
                    sequence := sequence f; mu := false |}
    else Fatal.

Definition load {A} (field : Flake -> A) : M A := fun f => Done (field f) f.

Definition store_prevTime (v : Z) : M unit :=
  fun f => Done tt {| prevTime := v; workerId := workerId f;
                      sequence := sequence f; mu := mu f |}.

Definition store_sequence (v : Z) : M unit :=
  fun f => Done tt {| prevTime := prevTime f; workerId := workerId f;
                      sequence := v; mu := mu f |}.

(** *** NextId *)

(** The two [if] statements of [NextId], on the local variables
    [now] and [sequence]. *)
Definition same_millisecond (now prev seq : Z) : Z * Z :=
  if now <=? prev then (prev, U64.add seq 1) else (now, 0).

Definition bump (now seq : Z) : Z * Z :=
  if seq >? MaxSequence then (U64.add now 1, 0) else (now, seq).

Definition NextId (since : Duration) : M Id :=
  let now := getTimestamp since in
  Lock ;;
  sequence0 <- load sequence ;;
  prev <- load prevTime ;;
  let '(now, sequence1) := same_millisecond now prev sequence0 in
  let '(now, sequence2) := bump now sequence1 in
  store_prevTime now ;;
  store_sequence sequence2 ;;
  Unlock ;;
  w <- load workerId ;;
  let timestamp := U64.shl now (HostBits + SequenceBits) in
  let workerId := U64.shl w SequenceBits in
  ret (Z.lor (Z.lor timestamp workerId) sequence2).

(** A caller issuing one call per clock reading, one after the other. *)
Fixpoint NextIds (clock : list Duration) : M (list Id) :=
  match clock with
  | [] => ret []
  | since :: rest =>
      id <- NextId since ;;
      ids <- NextIds rest ;;
      ret (id :: ids)
  end.

(** The clock readings of [n] calls made while the clock stands still. *)
Definition frozen (since : Duration) (n : Z) : list Duration :=
  repeat since (Z.to_nat n).

(** The successive values stored in [prevTime] by the calls of [NextIds]:
    the timestamps written into the identifiers. *)
Fixpoint stamps (clock : list Duration) (f : Flake) : list Z :=
  match clock with
  | [] => []
  | since :: rest =>
      match NextId since f with
      | Done _ f' => prevTime f' :: stamps rest f'
      | _ => []
      end
  end.

(** Generator states a client of the package can observe between calls. *)
Inductive reachable : Flake -> Prop :=
| reach_New (since : Duration) (w : Z) : reachable (New since w)
| reach_NextId (since : Duration) (f f' : Flake) (id : Id) :
    reachable f -> NextId since f = Done id f' -> reachable f'.

(** ** Bit layout of an identifier *)

Module Layout.

(** Bits 63-23, 22-13 and 12-0 of a 64-bit value. *)
Definition timestamp_field (id : Id) : Z :=
  Z.shiftr id (HostBits + SequenceBits).
Definition worker_field (id : Id) : Z :=
  Z.land (Z.shiftr id SequenceBits) (Z.ones HostBits).
Definition sequence_field (id : Id) : Z :=
  Z.land id (Z.ones SequenceBits).

Definition window : Z := 2 ^ 41.

End Layout.

(** ** Base-36 rendering

    [strconv] belongs to Go's standard library.  [FormatUint] and
    [ParseUint] follow its implementation for a base that is neither 10 nor
    a power of two, which is the path base 36 takes. *)

Module strconv.

Definition digits : string := "0123456789abcdefghijklmnopqrstuvwxyz".

Definition byte_of (c : ascii) : Z := Z.of_N (N_of_ascii c).

(** The loop of [formatBits] writes the digits from the right end of a
    buffer of [64 + 1] bytes; [room] is the number of free slots left, and
    writing with no slot left is an index out of range. *)
Fixpoint formatBits (room : nat) (u b : Z) (a : string) : option string :=
  match room with
  | O => None
  | S room' =>
      if u >=? b then
        let q := u / b in
        match get (Z.to_nat (U64.sub u (U64.mul q b))) digits with
        | Some c => formatBits room' q b (String c a)
        | None => None
        end
      else
        match get (Z.to_nat u) digits with
        | Some c => Some (String c a)
        | None => None
        end
  end.

Definition FormatUint (i : Z) (base : Z) : option string :=
  formatBits 65 i base EmptyString.

Inductive parsed : Type :=
| Parsed (n : Z)
| ErrSyntax
| ErrRange.

(** [lower(c)] is [c | ('x' - 'X')]. *)
Definition lower (c : Z) : Z := Z.lor c 32.

Definition digit_value (c : Z) : option Z :=
  if (48 <=? c) && (c <=? 57) then Some (c - 48)
  else if (97 <=? lower c) && (lower c <=? 122) then Some (lower c - 97 + 10)
  else None.

Fixpoint parse_loop (base cutoff maxVal : Z) (s : string) (n : Z) : parsed :=
  match s with
  | EmptyString => Parsed n
  | String c rest =>
      match digit_value (byte_of c) with
      | None => ErrSyntax
      | Some d =>
          if d >=? base then ErrSyntax
          else if n >=? cutoff then ErrRange
          else
            let n' := U64.mul n base in
            let n1 := U64.add n' d in
            if (n1 <? n') || (n1 >? maxVal) then ErrRange
            else parse_loop base cutoff maxVal rest n1
      end
  end.

Definition maxUint64 : Z := U64.modulus - 1.

(** The smallest number such that [cutoff * base > maxUint64]. *)
Definition cutoff (base : Z) : Z := maxUint64 / base + 1.

(** [uint64(1) << 64 - 1]: the shift gives 0 and the subtraction wraps. *)
Definition maxVal : Z := U64.sub (U64.shl 1 64) 1.

(** [ParseUint(s, base, 64)] for [2 <= base <= 36]. *)
Definition ParseUint (s : string) (base : Z) : parsed :=
  match s with
  | EmptyString => ErrSyntax
  | _ => parse_loop base (cutoff base) maxVal s 0
  end.

(** The loop of [ParseUint] in base 36. *)
Definition parse36 : string -> Z -> parsed :=
  parse_loop 36 (cutoff 36) maxVal.

(** The characters [0-9a-z]. *)
Definition lowercase_digit (c : ascii) : bool :=
  ((48 <=? byte_of c) && (byte_of c <=? 57))
  || ((97 <=? byte_of c) && (byte_of c <=? 122)).

Fixpoint all_lowercase (s : string) : bool :=
  match s with
  | EmptyString => true
  | String c rest => lowercase_digit c && all_lowercase rest
  end.

(** Does the string start with the digit [0]? *)
Definition leading_zero (s : string) : bool :=
  match s with
  | String c _ => byte_of c =? 48
  | EmptyString => false
  end.

End strconv.

(** [Id.String] *)
Definition String_ (id : Id) : option string :=
  strconv.FormatUint (Uint64 id) 36.

(** ** Worker id derived from the host address *)

Definition error := string.

(** The [(T, error)] pair returned by a library call. *)
Inductive returned (A : Type) : Type :=
| Value (a : A)
| Error (err : error).

Arguments Value {A} a.
Arguments Error {A} err.

(** What a function of this package does: return normally, return an
    error, or panic at run time. *)
Inductive result (A : Type) : Type :=
| Ok (a : A)
| Err (err : error)
| Panic.

Arguments Ok {A} a.
Arguments Err {A} err.
Arguments Panic {A}.

Module net.

Definition IP := list Byte.byte.

Definition is_zero (b : Byte.byte) : bool := Byte.eqb b Byte.x00.

(** [IP.To4]: a 4-byte address is returned as it is, an IPv4-mapped
    16-byte address gives its last four bytes, anything else [nil]. *)
Definition To4 (ip : IP) : IP :=
  if (List.length ip =? 4)%nat then ip
  else if (List.length ip =? 16)%nat
          && forallb is_zero (firstn 10 ip)
          && Byte.eqb (nth 10 ip Byte.x00) Byte.xff
          && Byte.eqb (nth 11 ip Byte.x00) Byte.xff
       then firstn 4 (skipn 12 ip)
       else [].

End net.

Module binary.

Definition octet (b : Byte.byte) : Z := Z.of_N (Byte.to_N b).

(** [BigEndian.Uint32]; [None] is the bounds check [_ = b[3]] failing. *)
Definition BigEndian_Uint32 (b : list Byte.byte) : option Z :=
  match b with
  | b0 :: b1 :: b2 :: b3 :: _ =>
      Some (Z.lor (Z.lor (Z.lor (octet b3) (Z.shiftl (octet b2) 8))
                         (Z.shiftl (octet b1) 16))
                  (Z.shiftl (octet b0) 24))
  | _ => None
  end.

(** [BigEndian.Uint64]; [None] is the bounds check [_ = b[7]] failing. *)
Definition BigEndian_Uint64 (b : list Byte.byte) : option Z :=
  match b with
  | b0 :: b1 :: b2 :: b3 :: b4 :: b5 :: b6 :: b7 :: _ =>
      Some (Z.lor (Z.lor (Z.lor (Z.lor (Z.lor (Z.lor (Z.lor
              (octet b7)
              (Z.shiftl (octet b6) 8))
              (Z.shiftl (octet b5) 16))
              (Z.shiftl (octet b4) 24))
              (Z.shiftl (octet b3) 32))
              (Z.shiftl (octet b2) 40))
              (Z.shiftl (octet b1) 48))
              (Z.shiftl (octet b0) 56))
  | _ => None
  end.

End binary.

(** The host as the package sees it: the results of [os.Hostname] and of
    [net.LookupIP]. *)
Record Host : Type := mkHost {
  os_Hostname : returned string;
  net_LookupIP : string -> returned (list net.IP)
}.

Definition getHostId (host : Host) : result Z :=
  match os_Hostname host with
  | Error err => Err err
  | Value h =>
      match net_LookupIP host h with
      | Error err => Err err
      | Value addrs =>
          match addrs with
          | [] => Panic  (* addrs[0]: index out of range *)
          | addr0 :: _ =>
              let a := net.To4 addr0 in
              if (List.length a <? 4)%nat
              then Err "failed to resolve hostname"%string
              else
                match binary.BigEndian_Uint32 a with
                | Some ip => Ok ip
                | None => Panic
                end
          end
      end
  end.

(** [WithHostId]: [Err] stands for the pair [(nil, err)]. *)
Definition WithHostId (host : Host) (since : Duration) : result Flake :=
  match getHostId host with
  | Ok workerID => Ok (New since workerID)
  | Err err => Err err
  | Panic => Panic
  end.

(** ** Random worker id *)

(** What [rand.Read(b[:])] does with the array [var b [8]byte].  By the
    contract of [crypto/rand] the error is [nil] exactly when all eight
    bytes were written.  A source that fails, or that delivers fewer than
    eight bytes, makes [Read] return an error up to Go 1.23; from Go 1.24 on
    [Read] never returns an error and the runtime ends the process. *)
Inductive read_outcome : Type :=
| Filled (b0 b1 b2 b3 b4 b5 b6 b7 : Byte.byte)
| Failed (err : error)
| Aborted.

(** A call that returns, in one of the three ways of [result], or during
    which the process ends. *)
Inductive run (A : Type) : Type :=
| Returns (r : result A)
| Aborts.

Arguments Returns {A} r.
Arguments Aborts {A}.

Definition getRandomId (read : read_outcome) : run Z :=
  match read with
  | Aborted => Aborts
  | Failed err => Returns (Err err)
  | Filled b0 b1 b2 b3 b4 b5 b6 b7 =>
      match binary.BigEndian_Uint64 [b0; b1; b2; b3; b4; b5; b6; b7] with
      | Some v => Returns (Ok v)
      | None => Returns Panic
      end
  end.

Definition WithRandomId (read : read_outcome) (since : Duration)
  : run Flake :=
  match getRandomId read with
  | Returns (Ok workerID) => Returns (Ok (New since workerID))
  | Returns (Err err) => Returns (Err err)
  | Returns Panic => Returns Panic
  | Aborts => Aborts
  end.

(** ** Auxiliary notions of the specification *)

(** [(now << 23) | (worker_id << 13) | sequence] in [uint64] arithmetic. *)
Definition compose (now w seq : Z) : Id :=
  Z.lor (Z.lor (U64.shl now (HostBits + SequenceBits)) (U64.shl w SequenceBits))
        seq.

(** The timestamp and sequence chosen by [NextId] from the clock reading
    [now] and the stored pair. *)
Definition advance (now prev seq : Z) : Z * Z :=
  let '(now1, seq1) := same_millisecond now prev seq in bump now1 seq1.

(** The invariant of the generator between calls. *)
Record wf (f : Flake) : Prop := mkWf {
  wf_prevTime : U64.in_range (prevTime f);
  wf_workerId : 0 <= workerId f < 2 ^ HostBits;
  wf_sequence : 0 <= sequence f <= MaxSequence;
  wf_mu : mu f = false
}.

(** The value of an identifier whose three fields are taken from [f]. *)
Definition encode (f : Flake) : Z :=
  prevTime f * 2 ^ 23 + workerId f * 2 ^ 13 + sequence f.

Definition strictly_increasing (ids : list Id) : Prop :=
  StronglySorted Z.lt ids.

(** The outcome of one call in each of the three cases of the algorithm:
    the new state, and the timestamp and sequence fields of the result. *)
Definition call_gives (since : Duration) (f : Flake) (t s : Z) : Prop :=
  exists id f',
    NextId since f = Done id f' /\ wf f' /\ workerId f' = workerId f /\
    prevTime f' = t /\ sequence f' = s /\
    Layout.timestamp_field id = t mod 2 ^ 41 /\
    Layout.sequence_field id = s.

(** * Properties *)

(** ** Arithmetic of the 64-bit layout *)

Lemma modulus_value : U64.modulus = 18446744073709551616.
Proof. reflexivity. Qed.

Lemma wrap_small (x : Z) : 0 <= x < U64.modulus -> U64.wrap x = x.
Proof. intros H. unfold U64.wrap. now apply Z.mod_small. Qed.

Lemma wrap_range (x : Z) : U64.in_range (U64.wrap x).
Proof. unfold U64.in_range, U64.wrap. apply Z.mod_pos_bound. reflexivity. Qed.

Lemma getTimestamp_range (since : Duration) : U64.in_range (getTimestamp since).
Proof. apply wrap_range. Qed.

Lemma testbit_beyond (x n i : Z) :
  0 <= x < 2 ^ n -> 0 <= n <= i -> Z.testbit x i = false.
Proof.
  intros Hx Hi.
  rewrite <- (Z.mod_small x (2 ^ n)) by assumption.
  apply Z.mod_pow2_bits_high; lia.
Qed.

(** A disjunction of values occupying disjoint bit ranges is their sum. *)
Lemma lor_disjoint (hi lo n : Z) :
  0 <= n -> 0 <= lo < 2 ^ n -> Z.lor (hi * 2 ^ n) lo = hi * 2 ^ n + lo.
Proof.
  intros Hn Hlo.
  assert (Hland : Z.land (hi * 2 ^ n) lo = 0).
  { apply Z.bits_inj'; intros i Hi.
    rewrite Z.land_spec, Z.bits_0.
    destruct (Z.lt_ge_cases i n) as [Hlt | Hge].
    - now rewrite Z.mul_pow2_bits_low.
    - rewrite (testbit_beyond lo n i) by lia. apply andb_false_r. }
  rewrite <- Z.lxor_lor by exact Hland.
  symmetry. now apply Z.add_nocarry_lxor.
Qed.

Lemma shl_sum (x n : Z) :
  0 <= n <= 64 -> U64.shl x n = (x mod 2 ^ (64 - n)) * 2 ^ n.
Proof.
  intros Hn. unfold U64.shl, U64.wrap, U64.modulus.
  rewrite Z.shiftl_mul_pow2 by lia.
  replace (2 ^ 64) with (2 ^ (64 - n) * 2 ^ n)
    by (rewrite <- Z.pow_add_r by lia; f_equal; lia).
  apply Z.mul_mod_distr_r; apply Z.pow_nonzero; lia.
Qed.

Lemma compose_sum (now w seq : Z) :
  0 <= w < 2 ^ HostBits -> 0 <= seq <= MaxSequence ->
  compose now w seq = (now mod 2 ^ 41) * 2 ^ 23 + w * 2 ^ 13 + seq.
Proof.
  unfold compose, HostBits, MaxSequence, SequenceBits. simpl Z.shiftl.
  intros Hw Hs.
  rewrite !shl_sum by lia.
  change (64 - (10 + 13)) with 41. change (10 + 13) with 23.
  change (64 - 13) with 51.
  rewrite (Z.mod_small w) by lia.
  set (t := now mod 2 ^ 41).
  rewrite (lor_disjoint t (w * 2 ^ 13) 23) by lia.
  replace (t * 2 ^ 23 + w * 2 ^ 13) with ((t * 2 ^ 10 + w) * 2 ^ 13) by lia.
  apply lor_disjoint; lia.
Qed.

Lemma fields_of_sum (t w s : Z) :
  0 <= w < 2 ^ HostBits -> 0 <= s <= MaxSequence ->
  Layout.timestamp_field (t * 2 ^ 23 + w * 2 ^ 13 + s) = t /\
  Layout.worker_field (t * 2 ^ 23 + w * 2 ^ 13 + s) = w /\
  Layout.sequence_field (t * 2 ^ 23 + w * 2 ^ 13 + s) = s.
Proof.
  unfold Layout.timestamp_field, Layout.worker_field, Layout.sequence_field.
  unfold HostBits, MaxSequence, SequenceBits. simpl Z.shiftl.
  change (10 + 13) with 23.
  intros Hw Hs.
  rewrite !Z.land_ones, !Z.shiftr_div_pow2 by lia.
  repeat split; Z.div_mod_to_equations; lia.
Qed.

(** ** The state transition of [NextId] *)

Lemma NextId_unlocked (since : Duration) (f : Flake) :
  mu f = false ->
  NextId since f =
    Done (compose (fst (advance (getTimestamp since) (prevTime f) (sequence f)))
                  (workerId f)
                  (snd (advance (getTimestamp since) (prevTime f) (sequence f))))
         {| prevTime := fst (advance (getTimestamp since) (prevTime f) (sequence f));
            workerId := workerId f;
            sequence := snd (advance (getTimestamp since) (prevTime f) (sequence f));
            mu := false |}.
Proof.
  intros Hmu. unfold NextId, advance, bind, Lock, load.
  rewrite Hmu.
  destruct (same_millisecond _ _ _) as [now1 seq1].
  destruct (bump now1 seq1) as [now2 seq2].
  reflexivity.
Qed.

Lemma NextId_locked (since : Duration) (f : Flake) :
  mu f = true -> NextId since f = Blocked.
Proof. intros Hmu. unfold NextId, bind, Lock. now rewrite Hmu. Qed.

(** The four cases of the transition, for values in range. *)
Lemma advance_cases (now prev seq : Z) :
  U64.in_range prev -> 0 <= seq <= MaxSequence ->
  advance now prev seq =
    if now <=? prev
    then if seq =? MaxSequence
         then (if prev =? U64.modulus - 1 then 0 else prev + 1, 0)
         else (prev, seq + 1)
    else (now, 0).
Proof.
  unfold U64.in_range, advance, same_millisecond, bump, U64.add, U64.wrap.
  unfold MaxSequence, SequenceBits. simpl Z.shiftl. rewrite modulus_value.
  intros Hp Hs.
  destruct (now <=? prev); [| reflexivity].
  rewrite (Z.mod_small (seq + 1)) by lia.
  destruct (Z.eqb_spec seq (8192 - 1)) as [-> | Hne].
  - simpl. destruct (Z.eqb_spec prev 18446744073709551615) as [-> | Hp'].
    + reflexivity.
    + now rewrite Z.mod_small by lia.
  - destruct (Z.gtb_spec (seq + 1) (8192 - 1)); [lia | reflexivity].
Qed.

Lemma advance_sequence (now prev seq : Z) :
  0 <= snd (advance now prev seq) <= MaxSequence.
Proof.
  unfold advance, same_millisecond, bump, U64.add, U64.wrap.
  unfold MaxSequence, SequenceBits. simpl Z.shiftl.
  destruct (now <=? prev).
  - pose proof (Z.mod_pos_bound (seq + 1) U64.modulus eq_refl) as Hm.
    set (s1 := (seq + 1) mod U64.modulus) in *.
    destruct (Z.gtb_spec s1 (8192 - 1)); cbn [snd]; lia.
  - destruct (Z.gtb_spec 0 (8192 - 1)); cbn [snd]; lia.
Qed.

Lemma advance_prevTime (now prev seq : Z) :
  U64.in_range now -> U64.in_range prev ->
  U64.in_range (fst (advance now prev seq)).
Proof.
  unfold advance, same_millisecond, bump. intros Hn Hp.
  destruct (now <=? prev).
  - destruct (_ >? _); cbn [fst]; [apply wrap_range | exact Hp].
  - destruct (_ >? _); cbn [fst]; [apply wrap_range | exact Hn].
Qed.

Lemma New_wf (since : Duration) (w : Z) : wf (New since w).
Proof.
  split; simpl.
  - apply getTimestamp_range.
  - pose proof (Z.mod_pos_bound w MaxWorkerId eq_refl) as H.
    revert H. unfold MaxWorkerId, HostBits. simpl Z.shiftl. lia.
  - unfold MaxSequence, SequenceBits. simpl. lia.
  - reflexivity.
Qed.

Lemma NextId_wf (since : Duration) (f : Flake) :
  wf f ->
  exists id f', NextId since f = Done id f' /\ wf f' /\
                workerId f' = workerId f.
Proof.
  intros [Hp Hw Hs Hmu].
  eexists _, _. split; [apply NextId_unlocked, Hmu |].
  split; [| reflexivity].
  split; simpl.
  - apply advance_prevTime; [apply getTimestamp_range | exact Hp].
  - exact Hw.
  - apply advance_sequence.
  - reflexivity.
Qed.

Lemma reachable_wf (f : Flake) : reachable f -> wf f.
Proof.
  induction 1 as [since w | since f f' id _ IH Hstep].
  - apply New_wf.
  - destruct (NextId_wf since f IH) as (id' & f'' & Hrun & Hwf & _).
    rewrite Hrun in Hstep. now inversion Hstep; subst.
Qed.

(** Case analysis on the transition chosen by [NextId]. *)
Ltac transition now prev seq Hp Hs :=
  rewrite !(advance_cases now prev seq Hp Hs);
  destruct (Z.leb_spec now prev);
  [ destruct (Z.eqb_spec seq MaxSequence);
    [ destruct (Z.eqb_spec prev (U64.modulus - 1)) | ] | ];
  cbn [fst snd].

Ltac constants :=
  unfold U64.in_range, Layout.window, MaxSequence, MaxWorkerId,
    HostBits, SequenceBits in *;
  rewrite ?modulus_value in *; simpl Z.shiftl in *.

(** One call, started between calls: the result and the new state. *)
Lemma NextId_step (since : Duration) (f : Flake) :
  wf f ->
  exists id f',
    NextId since f = Done id f' /\ wf f' /\
    workerId f' = workerId f /\
    (prevTime f', sequence f')
      = advance (getTimestamp since) (prevTime f) (sequence f) /\
    id = compose (prevTime f') (workerId f) (sequence f') /\
    id = (prevTime f' mod 2 ^ 41) * 2 ^ 23 + workerId f * 2 ^ 13 + sequence f'.
Proof.
  intros Hwf.
  destruct (NextId_wf since f Hwf) as (id & f' & Hrun & Hwf' & Hw).
  exists id, f'.
  split; [exact Hrun |]. split; [exact Hwf' |]. split; [exact Hw |].
  rewrite (NextId_unlocked since f (wf_mu f Hwf)) in Hrun.
  inversion Hrun; subst id f'; clear Hrun.
  cbn [prevTime workerId sequence] in *.
  split; [symmetry; apply surjective_pairing |].
  split; [reflexivity |].
  apply compose_sum; [apply Hwf | apply advance_sequence].
Qed.

Lemma step_monotone (now prev seq : Z) :
  U64.in_range now -> U64.in_range prev -> 0 <= seq <= MaxSequence ->
  prev < U64.modulus - 1 ->
  prev <= fst (advance now prev seq).
Proof.
  intros Hn Hp Hs Hmax.
  transition now prev seq Hp Hs; constants; lia.
Qed.

(** The pair (timestamp, sequence) grows lexicographically, hence so does
    the encoded value while the timestamp fits its 41 bits. *)
Lemma step_increasing (now prev seq w : Z) :
  U64.in_range now -> U64.in_range prev -> 0 <= seq <= MaxSequence ->
  prev < Layout.window ->
  fst (advance now prev seq) < Layout.window ->
  prev * 2 ^ 23 + w * 2 ^ 13 + seq
  < fst (advance now prev seq) * 2 ^ 23 + w * 2 ^ 13
    + snd (advance now prev seq).
Proof.
  intros Hn Hp Hs Hprev.
  transition now prev seq Hp Hs; constants; lia.
Qed.

Lemma NextIds_reachable (clock : list Duration) :
  forall f ids f',
    reachable f -> NextIds clock f = Done ids f' -> reachable f'.
Proof.
  induction clock as [| since rest IH]; intros f ids f' Hf Hrun.
  - now inversion Hrun; subst.
  - cbn [NextIds] in Hrun. unfold bind at 1 in Hrun.
    destruct (NextId since f) as [id f1 | |] eqn:Hstep; try discriminate.
    unfold bind at 1 in Hrun.
    destruct (NextIds rest f1) as [ids1 f2 | |] eqn:Hrest; try discriminate.
    inversion Hrun; subst ids f'.
    apply (IH f1 ids1 f2); [| exact Hrest].
    now apply (reach_NextId since f f1 id).
Qed.

(** The three bit fields of the identifier a call returns. *)
Lemma NextId_fields (since : Duration) (f : Flake) :
  wf f ->
  exists id f',
    NextId since f = Done id f' /\ wf f' /\
    (prevTime f', sequence f')
      = advance (getTimestamp since) (prevTime f) (sequence f) /\
    id = compose (prevTime f') (workerId f) (sequence f') /\
    Layout.sequence_field id = sequence f' /\
    Layout.worker_field id = workerId f /\
    Layout.timestamp_field id = prevTime f' mod 2 ^ 41.
Proof.
  intros Hwf.
  destruct (NextId_step since f Hwf)
    as (id & f' & Hrun & Hwf' & Hw & Hadv & Hid & Hsum).
  exists id, f'. split; [exact Hrun |]. split; [exact Hwf' |].
  split; [exact Hadv |]. split; [exact Hid |].
  destruct (fields_of_sum (prevTime f' mod 2 ^ 41) (workerId f) (sequence f'))
    as (Ht & Hwk & Hs); [apply Hwf | apply Hwf' |].
  rewrite <- Hsum in Ht, Hwk, Hs. now repeat split.
Qed.

Lemma call_gives_advance (since : Duration) (f : Flake) (t s : Z) :
  wf f ->
  advance (getTimestamp since) (prevTime f) (sequence f) = (t, s) ->
  call_gives since f t s.
Proof.
  intros Hwf Hadv.
  destruct (NextId_fields since f Hwf)
    as (id & f' & Hrun & Hwf' & Hadv' & _ & Hs & _ & Ht).
  destruct (NextId_wf since f Hwf) as (id2 & f2 & Hrun2 & _ & Hw).
  rewrite Hrun in Hrun2. inversion Hrun2; subst id2 f2; clear Hrun2.
  rewrite Hadv in Hadv'. inversion Hadv'; subst t s.
  exists id, f'. now repeat (split; trivial).
Qed.

(** While the clock does not pass the stored timestamp and the sequence is
    not exhausted, a call only increments the sequence. *)
Lemma NextId_same_millisecond (since : Duration) (f : Flake) :
  wf f -> getTimestamp since <= prevTime f -> sequence f < MaxSequence ->
  call_gives since f (prevTime f) (sequence f + 1).
Proof.
  intros Hwf Hnow Hseq. apply call_gives_advance; [exact Hwf |].
  rewrite (advance_cases _ _ _ (wf_prevTime f Hwf) (wf_sequence f Hwf)).
  destruct (Z.leb_spec (getTimestamp since) (prevTime f)); [| lia].
  destruct (Z.eqb_spec (sequence f) MaxSequence); [lia | reflexivity].
Qed.

(** When the sequence is exhausted the call borrows the next millisecond. *)
Lemma NextId_rollover (since : Duration) (f : Flake) :
  wf f -> getTimestamp since <= prevTime f -> sequence f = MaxSequence ->
  call_gives since f (U64.add (prevTime f) 1) 0.
Proof.
  intros Hwf Hnow Hseq. apply call_gives_advance; [exact Hwf |].
  unfold advance, same_millisecond, bump.
  destruct (Z.leb_spec (getTimestamp since) (prevTime f)); [| lia].
  rewrite Hseq. reflexivity.
Qed.

(** When the clock has passed the stored timestamp the sequence restarts. *)
Lemma NextId_new_millisecond (since : Duration) (f : Flake) :
  wf f -> prevTime f < getTimestamp since ->
  call_gives since f (getTimestamp since) 0.
Proof.
  intros Hwf Hnow. apply call_gives_advance; [exact Hwf |].
  unfold advance, same_millisecond, bump.
  destruct (Z.leb_spec (getTimestamp since) (prevTime f)); [lia |].
  reflexivity.
Qed.

Lemma frozen_calls_nat (since : Duration) (k : nat) :
  forall f,
    wf f -> getTimestamp since <= prevTime f ->
    sequence f + Z.of_nat k <= MaxSequence ->
    exists ids f',
      NextIds (repeat since k) f = Done ids f' /\ wf f' /\
      workerId f' = workerId f /\ prevTime f' = prevTime f /\
      sequence f' = sequence f + Z.of_nat k.
Proof.
  induction k as [| k IH]; intros f Hwf Hnow Hseq.
  - exists [], f. cbn [Z.of_nat]. rewrite Z.add_0_r.
    split; [reflexivity |]. split; [exact Hwf |]. now repeat split.
  - destruct (NextId_same_millisecond since f Hwf Hnow)
      as (id & f1 & Hrun & Hwf1 & Hw1 & Hp1 & Hs1 & _); [lia |].
    destruct (IH f1 Hwf1) as (ids & f' & Hruns & Hwf' & Hw & Hp & Hs);
      [lia | lia |].
    exists (id :: ids), f'.
    cbn [repeat NextIds]. unfold bind at 1. rewrite Hrun.
    unfold bind at 1. rewrite Hruns.
    split; [reflexivity |]. split; [exact Hwf' |].
    split; [congruence |]. split; [congruence |]. lia.
Qed.

Lemma frozen_calls (since : Duration) (n : Z) (f : Flake) :
  0 <= n ->
  wf f -> getTimestamp since <= prevTime f ->
  sequence f + n <= MaxSequence ->
  exists ids f',
    NextIds (frozen since n) f = Done ids f' /\ wf f' /\
    workerId f' = workerId f /\ prevTime f' = prevTime f /\
    sequence f' = sequence f + n.
Proof.
  intros Hn Hwf Hnow Hseq. unfold frozen.
  destruct (frozen_calls_nat since (Z.to_nat n) f Hwf Hnow)
    as (ids & f' & Hrun & Hwf' & Hw & Hp & Hs); [lia |].
  exists ids, f'. split; [exact Hrun |]. split; [exact Hwf' |].
  repeat split; trivial. lia.
Qed.

Lemma NextIds_cons (since : Duration) (clock : list Duration)
      (f f1 f2 : Flake) (id : Id) (ids : list Id) :
  NextId since f = Done id f1 -> NextIds clock f1 = Done ids f2 ->
  NextIds (since :: clock) f = Done (id :: ids) f2.
Proof.
  intros H1 H2. cbn [NextIds]. unfold bind at 1. rewrite H1.
  unfold bind at 1. now rewrite H2.
Qed.

Lemma NextIds_snoc (since : Duration) (clock : list Duration) :
  forall (f f1 f2 : Flake) (id : Id) (ids : list Id),
    NextIds clock f = Done ids f1 -> NextId since f1 = Done id f2 ->
    NextIds (clock ++ [since]) f = Done (ids ++ [id]) f2.
Proof.
  induction clock as [| c rest IH]; intros f f1 f2 id ids Hrun Hlast.
  - inversion Hrun; subst ids f1.
    now apply (NextIds_cons since [] f f2 f2 id []).
  - cbn [NextIds] in Hrun. unfold bind at 1 in Hrun.
    destruct (NextId c f) as [id0 f0 | |] eqn:Hstep; try discriminate.
    unfold bind at 1 in Hrun.
    destruct (NextIds rest f0) as [ids0 f0' | |] eqn:Hrest; try discriminate.
    inversion Hrun; subst ids f1.
    apply (NextIds_cons c (rest ++ [since]) f f0 f2 id0 (ids0 ++ [id]) Hstep).
    now apply (IH f0 f0').
Qed.

Lemma frozen_succ (since : Duration) (n : Z) :
  0 <= n -> frozen since (n + 1) = since :: frozen since n.
Proof.
  intros Hn. unfold frozen.
  rewrite Z2Nat.inj_add by lia. rewrite Nat.add_comm. reflexivity.
Qed.

Lemma frozen_snoc (since : Duration) (n : Z) :
  0 <= n -> frozen since (n + 1) = frozen since n ++ [since].
Proof.
  intros Hn. rewrite frozen_succ by exact Hn. unfold frozen.
  apply repeat_cons.
Qed.

(** ** The identifier is the bitwise composition of its three fields *)

(** C3, as far as the code goes: every identifier returned by [NextId] is
    [(now << 23) | (workerId << 13) | sequence] in [uint64] arithmetic,
    where [now] and [sequence] are the values the call chose and stored.
    Bits 12-0 are the sequence, bits 22-13 the worker id, and bits 63-23
    the low 41 bits of the timestamp: they are the timestamp itself as long
    as it is below [2^41]. *)
Theorem NextId_bit_composition (since : Duration) (f : Flake) :
  reachable f ->
  exists id f',
    NextId since f = Done id f' /\
    (prevTime f', sequence f')
      = advance (getTimestamp since) (prevTime f) (sequence f) /\
    id = Z.lor (Z.lor (U64.shl (prevTime f') 23) (U64.shl (workerId f) 13))
               (sequence f') /\
    Layout.sequence_field id = sequence f' /\
    Layout.worker_field id = workerId f /\
    Layout.timestamp_field id = prevTime f' mod 2 ^ 41 /\
    (prevTime f' < Layout.window -> Layout.timestamp_field id = prevTime f').
Proof.
  intros Hf. pose proof (reachable_wf f Hf) as Hwf.
  destruct (NextId_fields since f Hwf)
    as (id & f' & Hrun & Hwf' & Hadv & Hid & Hs & Hwk & Ht).
  exists id, f'. split; [exact Hrun |]. split; [exact Hadv |].
  split; [exact Hid |]. split; [exact Hs |]. split; [exact Hwk |].
  split; [exact Ht |].
  intros Hwin. rewrite Ht. apply Z.mod_small.
  destruct Hwf' as [Hp _ _ _]. constants. lia.
Qed.

Lemma NextId_bit_composition_witness :
  exists id f',
    NextId 5000000000 (New 0 3) = Done id f' /\
    (prevTime f', sequence f')
      = advance (getTimestamp 5000000000) (prevTime (New 0 3))
                (sequence (New 0 3)) /\
    id = Z.lor (Z.lor (U64.shl (prevTime f') 23)
                      (U64.shl (workerId (New 0 3)) 13))
               (sequence f') /\
    Layout.sequence_field id = sequence f' /\
    Layout.worker_field id = workerId (New 0 3) /\
    Layout.timestamp_field id = prevTime f' mod 2 ^ 41 /\
    (prevTime f' < Layout.window -> Layout.timestamp_field id = prevTime f').
Proof.
  apply (NextId_bit_composition 5000000000 (New 0 3)).
  apply reach_New.
Defined.

(** C3 fails once the timestamp needs more than 41 bits: at [2^41]
    milliseconds past the epoch the call stores the timestamp [2^41], the
    shift by 23 drops its only set bit, and bits 63-23 of the identifier
    hold 0. *)
Lemma timestamp_field_drops_high_bits :
  int64_range (2199023255552 * 1000000) /\
  reachable (New 0 3) /\
  exists id f',
    NextId (2199023255552 * 1000000) (New 0 3) = Done id f' /\
    prevTime f' = 2199023255552 /\
    Layout.timestamp_field id = 0 /\
    Layout.timestamp_field id <> prevTime f'.
Proof.
  split; [vm_compute; split; [discriminate | reflexivity] |].
  split; [apply reach_New |].
  eexists _, _. split; [vm_compute; reflexivity |].
  split; [reflexivity |]. split; [reflexivity |]. discriminate.
Qed.

(** ** Totality *)

(** C8: on every reachable generator and for every clock reading inside the
    41-bit window, [NextId] returns an identifier (it neither blocks on its
    own mutex nor unlocks a free one), the identifier is a [uint64] value,
    and the generator is left in a reachable state. *)
Theorem NextId_total (since : Duration) (f : Flake) :
  reachable f ->
  0 <= getTimestamp since < Layout.window ->
  exists id f',
    NextId since f = Done id f' /\ U64.in_range id /\ reachable f'.
Proof.
  intros Hf _. pose proof (reachable_wf f Hf) as Hwf.
  destruct (NextId_step since f Hwf)
    as (id & f' & Hrun & Hwf' & Hw & Hadv & Hid & Hsum).
  exists id, f'. split; [exact Hrun |]. split.
  - pose proof (Z.mod_pos_bound (prevTime f') (2 ^ 41) eq_refl) as Ht.
    destruct Hwf as [_ Hwk _ _]. destruct Hwf' as [_ _ Hs _].
    rewrite Hsum. constants. lia.
  - now apply (reach_NextId since f f' id).
Qed.

Lemma NextId_total_witness :
  exists id f',
    NextId 5000000000 (New 5000000000 3) = Done id f' /\
    U64.in_range id /\ reachable f'.
Proof.
  apply (NextId_total 5000000000 (New 5000000000 3)).
  - apply reach_New.
  - vm_compute. split; [discriminate | reflexivity].
Defined.

(** ** Frame *)

Lemma NextIds_frame (clock : list Duration) :
  forall f, mu f = false ->
    exists ids f',
      NextIds clock f = Done ids f' /\
      workerId f' = workerId f /\ mu f' = false /\
      List.length ids = List.length clock.
Proof.
  induction clock as [| since rest IH]; intros f Hmu.
  - exists [], f. repeat split; trivial.
  - cbn [NextIds]. unfold bind at 1.
    rewrite (NextId_unlocked since f Hmu).
    set (f1 := mkFlake _ _ _ false).
    destruct (IH f1 eq_refl) as (ids & f' & Hrun & Hw & Hmu' & Hlen).
    unfold bind at 1. rewrite Hrun.
    eexists _, _. split; [reflexivity |].
    repeat split; trivial. cbn [List.length]. now rewrite Hlen.
Qed.

(** C9: a call to [NextId] on a generator whose mutex is free returns and
    changes neither [workerId] nor the state of the mutex: only [prevTime]
    and [sequence] are written.  Hence after any number of calls on a
    constructed generator the worker id is still the one [New] stored. *)
Theorem NextId_frame (since : Duration) (f : Flake) :
  mu f = false ->
  (exists id f',
      NextId since f = Done id f' /\
      f' = {| prevTime := prevTime f'; workerId := workerId f;
              sequence := sequence f'; mu := mu f |}) /\
  (forall since0 w clock,
      exists ids f',
        NextIds clock (New since0 w) = Done ids f' /\
        workerId f' = workerId (New since0 w)).
Proof.
  intros Hmu. split.
  - eexists _, _. split; [apply NextId_unlocked, Hmu |].
    cbn [prevTime sequence]. now rewrite Hmu.
  - intros since0 w clock.
    destruct (NextIds_frame clock (New since0 w) eq_refl)
      as (ids & f' & Hrun & Hw & _).
    now exists ids, f'.
Qed.

Lemma NextId_frame_witness :
  (exists id f',
      NextId 1000000 (mkFlake 7 5 3 false) = Done id f' /\
      f' = {| prevTime := prevTime f'; workerId := 5;
              sequence := sequence f'; mu := false |}) /\
  (forall since0 w clock,
      exists ids f',
        NextIds clock (New since0 w) = Done ids f' /\
        workerId f' = workerId (New since0 w)).
Proof.
  apply (NextId_frame 1000000 (mkFlake 7 5 3 false)).
  reflexivity.
Defined.

(** ** State invariant *)

(** C10, as far as the code goes: every call on a reachable generator,
    whatever its stored timestamp, leaves the stored sequence at most 8191,
    so that the sequence field of the identifier is the stored sequence and
    the worker field is untouched; the stored timestamp does not decrease,
    provided it was not already the largest [uint64] value. *)
Theorem NextId_invariant (since : Duration) (f : Flake) :
  reachable f ->
  exists id f',
    NextId since f = Done id f' /\
    0 <= sequence f' <= MaxSequence /\
    Layout.sequence_field id = sequence f' /\
    Layout.worker_field id = workerId f /\
    (prevTime f < U64.modulus - 1 -> prevTime f <= prevTime f').
Proof.
  intros Hf. pose proof (reachable_wf f Hf) as Hwf.
  destruct (NextId_step since f Hwf)
    as (id & f' & Hrun & Hwf' & Hw & Hadv & Hid & Hsum).
  exists id, f'. split; [exact Hrun |].
  destruct (fields_of_sum (prevTime f' mod 2 ^ 41) (workerId f) (sequence f'))
    as (_ & Hwk & Hs); [apply Hwf | apply Hwf' |].
  rewrite <- Hsum in Hwk, Hs.
  split; [apply Hwf' |]. split; [exact Hs |]. split; [exact Hwk |].
  intros Hmax.
  replace (prevTime f') with
    (fst (advance (getTimestamp since) (prevTime f) (sequence f)))
    by now rewrite <- Hadv.
  apply step_monotone; trivial; try apply Hwf. apply getTimestamp_range.
Qed.

Lemma NextId_invariant_witness :
  exists id f',
    NextId (-1500000) (New (-1500000) 3) = Done id f' /\
    0 <= sequence f' <= MaxSequence /\
    Layout.sequence_field id = sequence f' /\
    Layout.worker_field id = workerId (New (-1500000) 3) /\
    (prevTime (New (-1500000) 3) < U64.modulus - 1 ->
     prevTime (New (-1500000) 3) <= prevTime f').
Proof.
  apply (NextId_invariant (-1500000) (New (-1500000) 3)).
  apply reach_New.
Defined.

(** C10 fails at the end of the [uint64] range: with the clock between one
    and two milliseconds before the epoch, [getTimestamp] is [2^64 - 1];
    a generator constructed then has exhausted its sequence after 8191
    calls and the next call stores the timestamp 0. *)
Lemma prevTime_wraps_to_zero :
  int64_range (-1500000) /\
  exists ids f id f',
    NextIds (frozen (-1500000) 8191) (New (-1500000) 0) = Done ids f /\
    reachable f /\
    prevTime f = 18446744073709551615 /\
    NextId (-1500000) f = Done id f' /\
    prevTime f' = 0 /\
    ~ prevTime f <= prevTime f'.
Proof.
  split; [vm_compute; split; [discriminate | reflexivity] |].
  destruct (frozen_calls (-1500000) 8191 (New (-1500000) 0))
    as (ids & f & Hrun & Hwf & _ & Hp & Hs);
    [lia | apply New_wf | reflexivity | vm_compute; discriminate |].
  destruct (NextId_rollover (-1500000) f Hwf)
    as (id & f' & Hstep & _ & _ & Hp' & _);
    [rewrite Hp; reflexivity | rewrite Hs; reflexivity |].
  exists ids, f, id, f'.
  split; [exact Hrun |].
  split; [apply (NextIds_reachable _ _ _ _ (reach_New _ _) Hrun) |].
  split; [rewrite Hp; reflexivity |].
  split; [exact Hstep |].
  rewrite Hp', Hp. split; [reflexivity |].
  vm_compute. intros H. now apply H.
Qed.

(** ** Construction *)

Lemma New_workerId (since : Duration) (w : Z) :
  workerId (New since w) = w mod 1023.
Proof. reflexivity. Qed.

(** C4, on the code: the worker id is reduced modulo [MaxWorkerId], which
    is 1023 and not 1024.  Constructing with worker id 1034 stores 11, and
    11 is what bits 22-13 of every identifier of that generator hold. *)
Theorem New_1034_stores_11 (since0 since : Duration) :
  (forall w, workerId (New since0 w) = w mod 1023) /\
  workerId (New since0 1034) = 11 /\
  1034 mod 2 ^ HostBits = 10 /\
  exists id f',
    NextId since (New since0 1034) = Done id f' /\
    Layout.worker_field id = 11.
Proof.
  split; [reflexivity |]. split; [reflexivity |]. split; [reflexivity |].
  destruct (NextId_fields since (New since0 1034) (New_wf _ _))
    as (id & f' & Hrun & _ & _ & _ & _ & Hw & _).
  now exists id, f'.
Qed.

(** ** Bit decomposition *)

(** C5, as far as the code goes: a generator with worker id 3 whose stored
    timestamp is earlier than 5000 returns [(5000 << 23) | (3 << 13) | 0]
    when the clock stands at exactly epoch + 5000 ms, whatever its stored
    sequence. *)
Theorem NextId_5000_3_0 (f : Flake) :
  mu f = false -> workerId f = 3 -> prevTime f < 5000 ->
  exists f',
    NextId (5000 * 1000000) f
    = Done (Z.lor (Z.lor (Z.shiftl 5000 23) (Z.shiftl 3 13)) 0) f' /\
    prevTime f' = 5000 /\ sequence f' = 0.
Proof.
  intros Hmu Hw Hprev.
  rewrite (NextId_unlocked _ f Hmu), Hw.
  change (getTimestamp (5000 * 1000000)) with 5000.
  unfold advance, same_millisecond.
  destruct (Z.leb_spec 5000 (prevTime f)) as [Hle | _]; [lia |].
  eexists. split; [reflexivity |]. split; reflexivity.
Qed.

Lemma NextId_5000_3_0_witness :
  exists f',
    NextId (5000 * 1000000) (New (4999 * 1000000) 3)
    = Done (Z.lor (Z.lor (Z.shiftl 5000 23) (Z.shiftl 3 13)) 0) f' /\
    prevTime f' = 5000 /\ sequence f' = 0.
Proof.
  apply (NextId_5000_3_0 (New (4999 * 1000000) 3)).
  - reflexivity.
  - reflexivity.
  - vm_compute. reflexivity.
Defined.

(** C5 fails for the generator constructed at the frozen instant: [New]
    stores the construction millisecond as already used, and the first
    identifier carries sequence 1. *)
Lemma first_call_in_construction_millisecond :
  workerId (New (5000 * 1000000) 3) = 3 /\
  sequence (New (5000 * 1000000) 3) = 0 /\
  exists id f',
    NextId (5000 * 1000000) (New (5000 * 1000000) 3) = Done id f' /\
    id = Z.lor (Z.lor (Z.shiftl 5000 23) (Z.shiftl 3 13)) 1 /\
    id <> Z.lor (Z.lor (Z.shiftl 5000 23) (Z.shiftl 3 13)) 0.
Proof.
  split; [reflexivity |]. split; [reflexivity |].
  eexists _, _. split; [vm_compute; reflexivity |].
  split; [reflexivity | discriminate].
Qed.

(** ** Monotonicity *)

Lemma encode_step (since : Duration) (f : Flake) :
  wf f ->
  exists id f',
    NextId since f = Done id f' /\ wf f' /\
    (prevTime f' < Layout.window -> id = encode f') /\
    (prevTime f < Layout.window -> prevTime f' < Layout.window ->
     encode f < encode f').
Proof.
  intros Hwf.
  destruct (NextId_step since f Hwf)
    as (id & f' & Hrun & Hwf' & Hw & Hadv & Hid & Hsum).
  exists id, f'. split; [exact Hrun |]. split; [exact Hwf' |].
  unfold encode. rewrite Hw. split.
  - intros Hwin. rewrite Hsum, Z.mod_small; [reflexivity |].
    destruct Hwf' as [Hp _ _ _]. constants. lia.
  - intros Hprev Hwin.
    assert (Hfst : prevTime f'
                   = fst (advance (getTimestamp since) (prevTime f) (sequence f)))
      by now rewrite <- Hadv.
    assert (Hsnd : sequence f'
                   = snd (advance (getTimestamp since) (prevTime f) (sequence f)))
      by now rewrite <- Hadv.
    rewrite Hfst in Hwin. rewrite Hfst, Hsnd.
    apply step_increasing; trivial; try apply Hwf. apply getTimestamp_range.
Qed.

Lemma sorted_run (clock : list Duration) :
  forall f,
    wf f ->
    Forall (fun t => t < Layout.window) (stamps clock f) ->
    exists ids f',
      NextIds clock f = Done ids f' /\
      List.length ids = List.length clock /\
      StronglySorted Z.lt ids /\
      (prevTime f < Layout.window -> Forall (fun id => encode f < id) ids).
Proof.
  induction clock as [| since rest IH]; intros f Hwf Hstamps.
  - exists [], f. repeat split; constructor.
  - destruct (encode_step since f Hwf)
      as (id & f1 & Hrun & Hwf1 & Hid & Hlt).
    cbn [stamps] in Hstamps. rewrite Hrun in Hstamps.
    inversion Hstamps as [| t ts Hwin Hrest]; subst t ts.
    destruct (IH f1 Hwf1 Hrest) as (ids & f' & Hruns & Hlen & Hsorted & Hall).
    exists (id :: ids), f'.
    cbn [NextIds]. unfold bind at 1. rewrite Hrun.
    unfold bind at 1. rewrite Hruns.
    split; [reflexivity |].
    split; [cbn [List.length]; now rewrite Hlen |].
    specialize (Hid Hwin). specialize (Hall Hwin). subst id.
    split.
    + constructor; assumption.
    + intros Hprev. specialize (Hlt Hprev Hwin).
      constructor; [exact Hlt |].
      eapply Forall_impl; [| exact Hall].
      intros a Ha. cbv beta in Ha. lia.
Qed.

(** C1, as far as the code goes: the identifiers returned by a sequence of
    calls, one after the other on one generator, are strictly increasing
    whatever the clock reads between the calls (the same millisecond again,
    or an earlier one), as long as the timestamps the calls store stay below
    [2^41], the capacity of the timestamp field. *)
Theorem NextIds_strictly_increasing (clock : list Duration) (f : Flake) :
  reachable f ->
  Forall (fun t => t < Layout.window) (stamps clock f) ->
  exists ids f',
    NextIds clock f = Done ids f' /\
    List.length ids = List.length clock /\
    strictly_increasing ids.
Proof.
  intros Hf Hstamps.
  destruct (sorted_run clock f (reachable_wf f Hf) Hstamps)
    as (ids & f' & Hrun & Hlen & Hsorted & _).
  now exists ids, f'.
Qed.

Lemma NextIds_strictly_increasing_witness :
  exists ids f',
    NextIds [5000000000; 5000000000; 4000000000; 5001000000]
            (New 5000000000 3) = Done ids f' /\
    List.length ids = 4%nat /\
    strictly_increasing ids.
Proof.
  apply (NextIds_strictly_increasing
           [5000000000; 5000000000; 4000000000; 5001000000]
           (New 5000000000 3)).
  - apply reach_New.
  - assert (H : stamps [5000000000; 5000000000; 4000000000; 5001000000]
                       (New 5000000000 3) = [5000; 5000; 5000; 5001])
      by (vm_compute; reflexivity).
    rewrite H. repeat (constructor; [reflexivity |]). constructor.
Defined.

(** C1 fails once the timestamp leaves its 41 bits: the shift by 23 drops
    the top bit of [2^41], and the identifier of the later call is the
    smaller one. *)
Lemma identifiers_decrease_past_window :
  int64_range (2199023255551 * 1000000) /\
  int64_range (2199023255552 * 1000000) /\
  exists id1 id2 f',
    NextIds [2199023255551 * 1000000; 2199023255552 * 1000000]
            (New (2199023255551 * 1000000) 0) = Done [id1; id2] f' /\
    id2 < id1 /\
    ~ strictly_increasing [id1; id2].
Proof.
  split; [vm_compute; split; [discriminate | reflexivity] |].
  split; [vm_compute; split; [discriminate | reflexivity] |].
  eexists _, _, _. split; [vm_compute; reflexivity |].
  split; [reflexivity |].
  intros Hs. inversion Hs as [| a l _ Hhd]; subst.
  inversion Hhd as [| b l' Hlt _]; subst. discriminate Hlt.
Qed.

(** ** Sequence rollover under a frozen clock *)

Lemma borrowed_millisecond (t : Z) :
  0 <= t -> t + 1 < Layout.window ->
  U64.add t 1 = t + 1 /\ (t + 1) mod 2 ^ 41 = t + 1.
Proof.
  intros H0 Hwin. unfold U64.add, U64.wrap. constants.
  rewrite !Z.mod_small by lia. split; reflexivity.
Qed.

(** A generator constructed while the clock is frozen: the construction
    millisecond counts as used, the 8192nd call rolls over and the 8193rd
    carries sequence 1. *)
Lemma frozen_since_construction (since : Duration) (w : Z) :
  getTimestamp since + 1 < Layout.window ->
  exists ids f id f',
    NextIds (frozen since 8192) (New since w) = Done ids f /\
    NextId since f = Done id f' /\
    Layout.timestamp_field (last ids 0) = getTimestamp since + 1 /\
    Layout.sequence_field (last ids 0) = 0 /\
    Layout.timestamp_field id = getTimestamp since + 1 /\
    Layout.sequence_field id = 1.
Proof.
  intros Hwin.
  pose proof (getTimestamp_range since) as [Ht0 _].
  destruct (borrowed_millisecond _ Ht0 Hwin) as [Hadd Hmod].
  destruct (frozen_calls since 8191 (New since w))
    as (ids & f1 & Hrun & Hwf1 & _ & Hp1 & Hs1);
    [lia | apply New_wf | cbn [prevTime New]; lia
     | vm_compute; discriminate |].
  cbn [prevTime sequence New] in Hp1, Hs1.
  destruct (NextId_rollover since f1 Hwf1)
    as (id2 & f2 & Hrun2 & Hwf2 & _ & Hp2 & Hs2 & Hts2 & Hsq2);
    [lia | rewrite Hs1; reflexivity |].
  rewrite Hp1, Hadd in Hp2, Hts2. rewrite Hmod in Hts2.
  destruct (NextId_same_millisecond since f2 Hwf2)
    as (id3 & f3 & Hrun3 & _ & _ & _ & _ & Hts3 & Hsq3);
    [lia | rewrite Hs2; vm_compute; reflexivity |].
  rewrite Hp2, Hmod in Hts3. rewrite Hs2 in Hsq3.
  exists (ids ++ [id2]), f2, id3, f3.
  split.
  { change 8192 with (8191 + 1). rewrite frozen_snoc by lia.
    now apply (NextIds_snoc since _ _ f1). }
  rewrite last_last. now repeat split.
Qed.

(** A generator whose stored timestamp is earlier than the frozen clock:
    the first call restarts the sequence at 0 and the 8193rd rolls over. *)
Lemma frozen_after_construction (since : Duration) (f : Flake) :
  wf f -> prevTime f < getTimestamp since ->
  getTimestamp since + 1 < Layout.window ->
  exists ids f1 id f2,
    NextIds (frozen since 8192) f = Done ids f1 /\
    NextId since f1 = Done id f2 /\
    Layout.timestamp_field id = getTimestamp since + 1 /\
    Layout.sequence_field id = 0.
Proof.
  intros Hwf Hprev Hwin.
  pose proof (getTimestamp_range since) as [Ht0 _].
  destruct (borrowed_millisecond _ Ht0 Hwin) as [Hadd Hmod].
  destruct (NextId_new_millisecond since f Hwf Hprev)
    as (id1 & f1 & Hrun1 & Hwf1 & _ & Hp1 & Hs1 & _).
  destruct (frozen_calls since 8191 f1)
    as (ids & f2 & Hrun & Hwf2 & _ & Hp2 & Hs2);
    [lia | exact Hwf1 | lia | rewrite Hs1; vm_compute; discriminate |].
  destruct (NextId_rollover since f2 Hwf2)
    as (id & f3 & Hrun3 & _ & _ & _ & _ & Hts & Hsq);
    [lia | rewrite Hs2, Hs1; reflexivity |].
  rewrite Hp2, Hp1, Hadd, Hmod in Hts.
  exists (id1 :: ids), f2, id, f3.
  split.
  { change 8192 with (8191 + 1). rewrite frozen_succ by lia.
    now apply (NextIds_cons since _ f f1). }
  now repeat split.
Qed.

(** C2, as far as the code goes.  With the clock frozen at a millisecond [t]
    inside the window, a generator constructed under that clock rolls over
    at its 8192nd call (timestamp field [t + 1], sequence 0), so that its
    8193rd call returns timestamp field [t + 1] and sequence 1.  It is for a
    generator whose stored timestamp is earlier than [t] that the 8193rd
    call is the one returning timestamp field [t + 1] and sequence 0. *)
Theorem rollover_frozen_clock (since : Duration) (w : Z) :
  getTimestamp since + 1 < Layout.window ->
  (exists ids f id f',
      NextIds (frozen since 8192) (New since w) = Done ids f /\
      NextId since f = Done id f' /\
      Layout.timestamp_field (last ids 0) = getTimestamp since + 1 /\
      Layout.sequence_field (last ids 0) = 0 /\
      Layout.timestamp_field id = getTimestamp since + 1 /\
      Layout.sequence_field id = 1) /\
  (forall f,
      reachable f -> prevTime f < getTimestamp since ->
      exists ids f1 id f2,
        NextIds (frozen since 8192) f = Done ids f1 /\
        NextId since f1 = Done id f2 /\
        Layout.timestamp_field id = getTimestamp since + 1 /\
        Layout.sequence_field id = 0).
Proof.
  intros Hwin. split.
  - now apply frozen_since_construction.
  - intros f Hf Hprev.
    apply frozen_after_construction; trivial. now apply reachable_wf.
Qed.

Lemma rollover_frozen_clock_witness :
  (exists ids f id f',
      NextIds (frozen 5000000000 8192) (New 5000000000 1) = Done ids f /\
      NextId 5000000000 f = Done id f' /\
      Layout.timestamp_field (last ids 0) = getTimestamp 5000000000 + 1 /\
      Layout.sequence_field (last ids 0) = 0 /\
      Layout.timestamp_field id = getTimestamp 5000000000 + 1 /\
      Layout.sequence_field id = 1) /\
  (forall f,
      reachable f -> prevTime f < getTimestamp 5000000000 ->
      exists ids f1 id f2,
        NextIds (frozen 5000000000 8192) f = Done ids f1 /\
        NextId 5000000000 f1 = Done id f2 /\
        Layout.timestamp_field id = getTimestamp 5000000000 + 1 /\
        Layout.sequence_field id = 0).
Proof.
  apply (rollover_frozen_clock 5000000000 1).
  vm_compute. reflexivity.
Defined.

(** C2 fails for the generator constructed under the frozen clock: after
    8192 calls, the 8193rd returns sequence 1, not 0. *)
Lemma rollover_one_call_early :
  exists ids f id f',
    NextIds (frozen 5000000000 8192) (New 5000000000 1) = Done ids f /\
    NextId 5000000000 f = Done id f' /\
    Layout.timestamp_field id = 5001 /\
    Layout.sequence_field id = 1 /\
    Layout.sequence_field id <> 0.
Proof.
  destruct (frozen_since_construction 5000000000 1)
    as (ids & f & id & f' & Hrun & Hlast & _ & _ & Hts & Hsq);
    [vm_compute; reflexivity |].
  exists ids, f, id, f'.
  split; [exact Hrun |]. split; [exact Hlast |].
  split; [exact Hts |]. split; [exact Hsq |].
  rewrite Hsq. discriminate.
Qed.

(** ** Base-36 rendering and parsing *)

Section Base36.

Local Open Scope string_scope.

Lemma cutoff_36 : strconv.cutoff 36 = 512409557603043101.
Proof. reflexivity. Qed.

Lemma maxVal_value : strconv.maxVal = 18446744073709551615.
Proof. reflexivity. Qed.

(** Every entry of the digit table is a lowercase digit that parses back
    to its index. *)
Lemma digit_table (d : Z) :
  0 <= d < 36 ->
  exists c,
    get (Z.to_nat d) strconv.digits = Some c /\
    strconv.digit_value (strconv.byte_of c) = Some d /\
    strconv.lowercase_digit c = true.
Proof.
  intros Hd.
  assert (Hk : exists k : nat, d = Z.of_nat k /\ (k < 36)%nat)
    by (exists (Z.to_nat d); lia).
  destruct Hk as (k & -> & Hk). rewrite Nat2Z.id.
  do 36 (destruct k as [| k];
         [eexists; split; [reflexivity |]; split; reflexivity |]).
  lia.
Qed.

Lemma append_snoc (p : string) (c : ascii) (x : string) :
  (p ++ String c "") ++ x = p ++ String c x.
Proof. induction p as [| c0 p IH]; cbn; [reflexivity | now rewrite IH]. Qed.

Lemma all_lowercase_snoc (p : string) (c : ascii) :
  strconv.all_lowercase p = true -> strconv.lowercase_digit c = true ->
  strconv.all_lowercase (p ++ String c "") = true.
Proof.
  intros Hp Hc. induction p as [| c0 p IH]; cbn in *.
  - now rewrite Hc.
  - apply andb_true_iff in Hp as [H0 Hp]. rewrite H0. now apply IH.
Qed.

(** One iteration of the loop of [ParseUint] on a digit that fits. *)
Lemma parse_digit (c : ascii) (rest : string) (q d : Z) :
  strconv.digit_value (strconv.byte_of c) = Some d ->
  0 <= d < 36 -> 0 <= q -> 36 * q + d < U64.modulus ->
  strconv.parse36 (String c rest) q = strconv.parse36 rest (36 * q + d).
Proof.
  intros Hc Hd Hq Hu. unfold strconv.parse36. cbn [strconv.parse_loop].
  rewrite Hc, cutoff_36, maxVal_value.
  rewrite modulus_value in Hu.
  destruct (Z.geb_spec d 36); [lia |].
  destruct (Z.geb_spec q 512409557603043101); [lia |].
  unfold U64.mul, U64.add, U64.wrap. rewrite modulus_value.
  rewrite (Z.mod_small (q * 36)) by lia.
  rewrite (Z.mod_small (q * 36 + d)) by lia.
  destruct (Z.ltb_spec (q * 36 + d) (q * 36)); [lia |].
  destruct (Z.gtb_spec (q * 36 + d) 18446744073709551615); [lia |].
  cbn [orb]. f_equal. lia.
Qed.

(** The digit written by one iteration of [formatBits]. *)
Lemma format_digit (u : Z) :
  0 <= u < U64.modulus ->
  U64.sub u (U64.mul (u / 36) 36) = u mod 36.
Proof.
  intros Hu. rewrite modulus_value in Hu.
  unfold U64.sub, U64.mul, U64.wrap. rewrite modulus_value.
  rewrite (Z.mod_small (u / 36 * 36)) by (Z.div_mod_to_equations; lia).
  rewrite Z.mod_small by (Z.div_mod_to_equations; lia).
  Z.div_mod_to_equations; lia.
Qed.

Lemma format_parse (room : nat) :
  forall u a,
    0 <= u < 36 ^ Z.of_nat (S room) -> u < U64.modulus ->
    exists p,
      strconv.formatBits (S room) u 36 a = Some (p ++ a) /\
      p <> "" /\
      strconv.all_lowercase p = true /\
      (u <> 0 -> strconv.leading_zero p = false) /\
      forall rest, strconv.parse36 (p ++ rest) 0 = strconv.parse36 rest u.
Proof.
  assert (Hlast : forall u a room',
             0 <= u < 36 -> 
             exists p,
               strconv.formatBits (S room') u 36 a = Some (p ++ a) /\
               p <> "" /\
               strconv.all_lowercase p = true /\
               (u <> 0 -> strconv.leading_zero p = false) /\
               forall rest,
                 strconv.parse36 (p ++ rest) 0 = strconv.parse36 rest u).
  { intros u a room' Hu.
    destruct (digit_table u Hu) as (c & Hget & Hval & Hlow).
    exists (String c ""). cbn [strconv.formatBits].
    destruct (Z.geb_spec u 36); [lia |]. rewrite Hget.
    split; [reflexivity |]. split; [discriminate |].
    split; [cbn; now rewrite Hlow |].
    split.
    { intros Hnz. cbn [strconv.leading_zero].
      destruct (Z.eqb_spec (strconv.byte_of c) 48) as [E | _];
        [| reflexivity].
      rewrite E in Hval. cbn in Hval. congruence. }
    intros rest. cbn [append].
    rewrite (parse_digit c rest 0 u Hval); try lia.
    - f_equal.
    - rewrite modulus_value. lia. }
  induction room as [| room IH]; intros u a Hu Hmax.
  - apply Hlast. cbn in Hu. lia.
  - destruct (Z_lt_ge_dec u 36) as [Hsmall | Hbig]; [apply Hlast; lia |].
    cbn [strconv.formatBits].
    destruct (Z.geb_spec u 36); [| lia].
    rewrite format_digit by lia.
    assert (Hd : 0 <= u mod 36 < 36) by (apply Z.mod_pos_bound; lia).
    destruct (digit_table (u mod 36) Hd) as (c & Hget & Hval & Hlow).
    rewrite Hget.
    assert (Hq : 0 <= u / 36 < 36 ^ Z.of_nat (S room)).
    { rewrite Nat2Z.inj_succ, Z.pow_succ_r in Hu by lia.
      split; [apply Z.div_pos; lia |].
      apply Z.div_lt_upper_bound; lia. }
    assert (Hq64 : u / 36 < U64.modulus)
      by (rewrite modulus_value in *; Z.div_mod_to_equations; lia).
    destruct (IH (u / 36) (String c a) Hq Hq64)
      as (p & Hfmt & Hne & Hall & Hlead & Hparse).
    exists (p ++ String c ""). rewrite append_snoc.
    split; [exact Hfmt |].
    split; [destruct p; [congruence | discriminate] |].
    split; [now apply all_lowercase_snoc |].
    split.
    { intros _. destruct p as [| c0 p]; [congruence |].
      cbn [append strconv.leading_zero]. apply Hlead.
      Z.div_mod_to_equations; lia. }
    intros rest. rewrite append_snoc, Hparse.
    rewrite (parse_digit c rest (u / 36) (u mod 36) Hval); try lia.
    + f_equal. Z.div_mod_to_equations; lia.
    + replace (36 * (u / 36) + u mod 36) with u
        by (Z.div_mod_to_equations; lia).
      exact Hmax.
Qed.

Lemma String_parses_back (v : Z) :
  U64.in_range v ->
  exists s,
    String_ v = Some s /\
    strconv.ParseUint s 36 = strconv.Parsed v /\
    strconv.all_lowercase s = true /\
    (v <> 0 -> strconv.leading_zero s = false).
Proof.
  intros [H0 Hmax].
  destruct (format_parse 64 v "")
    as (p & Hfmt & Hne & Hall & Hlead & Hparse).
  - split; [exact H0 |].
    eapply Z.lt_trans; [exact Hmax |]. reflexivity.
  - exact Hmax.
  - exists (p ++ ""). split; [exact Hfmt |].
    split.
    + unfold strconv.ParseUint.
      destruct p as [| c p]; [congruence |]. cbn [append].
      change (String c (p ++ "")) with (String c p ++ "").
      apply (Hparse "").
    + split.
      * clear - Hall. induction p as [| c p IH]; cbn in *; [reflexivity |].
        apply andb_true_iff in Hall as [Hc Hp]. rewrite Hc. now apply IH.
      * intros Hnz. destruct p as [| c p]; [congruence |].
        apply (Hlead Hnz).
Qed.

End Base36.

(** C6: for every 64-bit value [v], [String] returns a string of the
    characters [0-9a-z], without a leading zero unless [v] is 0, which
    [ParseUint], in base 36 and for 64 bits, parses back to [v]; 0 is
    rendered as "0" and 36 as "10". *)
Theorem String_roundtrip (v : Z) :
  U64.in_range v ->
  (exists s,
      String_ v = Some s /\
      strconv.ParseUint s 36 = strconv.Parsed v /\
      strconv.all_lowercase s = true /\
      (v <> 0 -> strconv.leading_zero s = false)) /\
  String_ 0 = Some "0"%string /\
  String_ 36 = Some "10"%string.
Proof.
  intros Hv. split; [now apply String_parses_back |].
  split; reflexivity.
Qed.

Lemma String_roundtrip_witness :
  (exists s,
      String_ 18446744073709551615 = Some s /\
      strconv.ParseUint s 36 = strconv.Parsed 18446744073709551615 /\
      strconv.all_lowercase s = true /\
      (18446744073709551615 <> 0 -> strconv.leading_zero s = false)) /\
  String_ 0 = Some "0"%string /\
  String_ 36 = Some "10"%string.
Proof.
  apply (String_roundtrip 18446744073709551615).
  vm_compute. split; [discriminate | reflexivity].
Defined.

(** ** Worker id derived from the host address *)

Lemma octet_range (b : Byte.byte) : 0 <= binary.octet b < 256.
Proof.
  unfold binary.octet. pose proof (Byte.to_N_bounded b). lia.
Qed.

(** [To4] returns four bytes or nothing. *)
Lemma To4_cases (ip : net.IP) :
  net.To4 ip = [] \/ exists b0 b1 b2 b3, net.To4 ip = [b0; b1; b2; b3].
Proof.
  unfold net.To4.
  destruct (Nat.eqb_spec (List.length ip) 4) as [H4 | _].
  - right. do 4 (destruct ip as [| ? ip]; [discriminate |]).
    destruct ip; [| discriminate]. now eexists _, _, _, _.
  - destruct (Nat.eqb_spec (List.length ip) 16) as [H16 | _];
      [| now left].
    cbn [andb].
    destruct (forallb _ _ && _ && _); [| now left].
    right. do 16 (destruct ip as [| ? ip]; [discriminate |]).
    destruct ip; [| discriminate]. cbn. now eexists _, _, _, _.
Qed.

Lemma BigEndian_Uint32_value (b0 b1 b2 b3 : Byte.byte) :
  binary.BigEndian_Uint32 [b0; b1; b2; b3]
  = Some (binary.octet b0 * 2 ^ 24 + binary.octet b1 * 2 ^ 16
          + binary.octet b2 * 2 ^ 8 + binary.octet b3).
Proof.
  cbn [binary.BigEndian_Uint32].
  pose proof (octet_range b0). pose proof (octet_range b1).
  pose proof (octet_range b2). pose proof (octet_range b3).
  rewrite !Z.shiftl_mul_pow2 by lia.
  rewrite (Z.lor_comm (binary.octet b3)), lor_disjoint by lia.
  rewrite (Z.lor_comm _ (binary.octet b1 * 2 ^ 16)), lor_disjoint by lia.
  rewrite (Z.lor_comm _ (binary.octet b0 * 2 ^ 24)), lor_disjoint by lia.
  f_equal. lia.
Qed.

(** What [getHostId] does in each situation of the host. *)
Lemma getHostId_cases (host : Host) :
  match os_Hostname host with
  | Error err => getHostId host = Err err
  | Value h =>
      match net_LookupIP host h with
      | Error err => getHostId host = Err err
      | Value [] => getHostId host = Panic
      | Value (addr0 :: _) =>
          match net.To4 addr0 with
          | [b0; b1; b2; b3] =>
              getHostId host
              = Ok (binary.octet b0 * 2 ^ 24 + binary.octet b1 * 2 ^ 16
                    + binary.octet b2 * 2 ^ 8 + binary.octet b3)
          | _ => getHostId host = Err "failed to resolve hostname"%string
          end
      end
  end.
Proof.
  unfold getHostId.
  destruct (os_Hostname host) as [h | err]; [| reflexivity].
  destruct (net_LookupIP host h) as [[| addr0 rest] | err]; try reflexivity.
  destruct (To4_cases addr0) as [-> | (b0 & b1 & b2 & b3 & ->)];
    [reflexivity |].
  cbn [List.length Nat.ltb Nat.leb].
  now rewrite BigEndian_Uint32_value.
Qed.

(** C7, on the code: when the host name resolves and the lookup succeeds
    with an empty list of addresses, [getHostId] indexes the empty list and
    panics, so that [WithHostId] returns neither an error nor a generator.
    The other failures are returned as errors. *)
Theorem getHostId_empty_lookup (h : string) (since : Duration) :
  getHostId (mkHost (Value h) (fun _ => Value [])) = Panic /\
  WithHostId (mkHost (Value h) (fun _ => Value [])) since = Panic /\
  (forall err lookup,
      WithHostId (mkHost (Error err) lookup) since = Err err) /\
  (forall err,
      WithHostId (mkHost (Value h) (fun _ => Error err)) since = Err err).
Proof. repeat split. Qed.

(** * Further properties of the package *)

(** ** The clock *)

(** X1: from the epoch on, [getTimestamp] is the number of whole
    milliseconds elapsed; it does not decrease when the clock advances, and
    it fits the 41-bit field exactly while the clock is less than [2^41]
    milliseconds past the epoch. *)
Theorem getTimestamp_after_epoch (d1 d2 : Duration) :
  0 <= d1 <= d2 -> int64_range d2 ->
  getTimestamp d1 = d1 / 1000000 /\
  getTimestamp d1 * 1000000 <= d1 < (getTimestamp d1 + 1) * 1000000 /\
  getTimestamp d1 <= getTimestamp d2 /\
  (getTimestamp d1 < Layout.window <-> d1 < 2 ^ 41 * 1000000).
Proof.
  intros Hd [_ Hmax].
  assert (Hms : forall d, 0 <= d <= d2 -> getTimestamp d = d / 1000000).
  { intros d Hdd. unfold getTimestamp, U64.wrap.
    rewrite Z.quot_div_nonneg by lia. rewrite modulus_value.
    apply Z.mod_small. Z.div_mod_to_equations. lia. }
  rewrite (Hms d1), (Hms d2) by lia. unfold Layout.window.
  repeat split; try (Z.div_mod_to_equations; lia).
Qed.

Lemma getTimestamp_after_epoch_witness :
  getTimestamp 5000999999 = 5000999999 / 1000000 /\
  getTimestamp 5000999999 * 1000000 <= 5000999999
    < (getTimestamp 5000999999 + 1) * 1000000 /\
  getTimestamp 5000999999 <= getTimestamp 5001000000 /\
  (getTimestamp 5000999999 < Layout.window
   <-> 5000999999 < 2 ^ 41 * 1000000).
Proof.
  apply (getTimestamp_after_epoch 5000999999 5001000000).
  - lia.
  - vm_compute. split; [discriminate | reflexivity].
Defined.

(** X2: with the clock before the epoch the division truncates towards
    zero and the conversion to [uint64] wraps: less than a millisecond
    before the epoch reads as 0, and a millisecond or more before it reads
    as [2^64] minus the whole milliseconds missing, far outside the 41-bit
    window. *)
Theorem getTimestamp_before_epoch (d : Duration) :
  int64_range d -> d < 0 ->
  (- 1000000 < d -> getTimestamp d = 0) /\
  (d <= - 1000000 ->
   getTimestamp d = U64.modulus - (- d) / 1000000 /\
   Layout.window <= getTimestamp d).
Proof.
  intros [Hmin _] Hneg. unfold getTimestamp, U64.wrap, Layout.window.
  rewrite modulus_value.
  assert (Hd : d = - (- d)) by lia.
  set (m := - d) in *. assert (Hm : 0 < m <= 2 ^ 63) by lia.
  rewrite Hd. clearbody m. clear Hd Hmin Hneg.
  rewrite Z.quot_opp_l by lia. rewrite Z.quot_div_nonneg by lia.
  split.
  - intros Hsub. rewrite Z.div_small by lia. reflexivity.
  - intros Hms.
    assert (Hq : 0 < m / 1000000 <= 9223372036854)
      by (Z.div_mod_to_equations; lia).
    assert (Heq : (- (m / 1000000)) mod 18446744073709551616
                  = 18446744073709551616 - m / 1000000).
    { symmetry. apply (Z.mod_unique _ _ (-1)); lia. }
    rewrite Heq. split; [reflexivity | lia].
Qed.

Lemma getTimestamp_before_epoch_witness :
  (- 1000000 < - 1500000 -> getTimestamp (- 1500000) = 0) /\
  (- 1500000 <= - 1000000 ->
   getTimestamp (- 1500000) = U64.modulus - (- - 1500000) / 1000000 /\
   Layout.window <= getTimestamp (- 1500000)).
Proof.
  apply (getTimestamp_before_epoch (- 1500000)).
  - vm_compute. split; [discriminate | reflexivity].
  - lia.
Defined.

(** ** One call *)

(** X3: a clock reading that is not ahead of the stored timestamp has no
    influence on the call: whatever the clock reads, at or behind the stored
    timestamp, the identifier and the new state are the same. *)
Theorem NextId_ignores_clock_behind (since1 since2 : Duration) (f : Flake) :
  getTimestamp since1 <= prevTime f ->
  getTimestamp since2 <= prevTime f ->
  NextId since1 f = NextId since2 f.
Proof.
  intros H1 H2. destruct (mu f) eqn:Hmu.
  - now rewrite !NextId_locked.
  - rewrite !NextId_unlocked by exact Hmu.
    unfold advance, same_millisecond.
    destruct (Z.leb_spec (getTimestamp since1) (prevTime f)); [| lia].
    destruct (Z.leb_spec (getTimestamp since2) (prevTime f)); [| lia].
    reflexivity.
Qed.

Lemma NextId_ignores_clock_behind_witness :
  NextId 5000000000 (New 5000000000 3) = NextId 1000000 (New 5000000000 3).
Proof.
  apply (NextId_ignores_clock_behind 5000000000 1000000 (New 5000000000 3));
    vm_compute; discriminate.
Defined.

(** X4: the timestamp a call stores is never behind the clock reading nor
    behind the timestamp stored before, and it is at most one millisecond
    ahead of the later of the two; it is ahead only when the sequence was
    exhausted, and the stored sequence is then 0. *)
Theorem NextId_timestamp_bounds (since : Duration) (f : Flake) :
  reachable f -> prevTime f < U64.modulus - 1 ->
  exists id f',
    NextId since f = Done id f' /\
    Z.max (getTimestamp since) (prevTime f) <= prevTime f'
      <= Z.max (getTimestamp since) (prevTime f) + 1 /\
    (prevTime f' = Z.max (getTimestamp since) (prevTime f) + 1 ->
     sequence f = MaxSequence /\ sequence f' = 0).
Proof.
  intros Hf Hmax. pose proof (reachable_wf f Hf) as Hwf.
  destruct (NextId_step since f Hwf)
    as (id & f' & Hrun & _ & _ & Hadv & _).
  exists id, f'. split; [exact Hrun |].
  pose proof (wf_prevTime f Hwf) as Hp.
  pose proof (wf_sequence f Hwf) as Hs.
  rewrite (advance_cases _ _ _ Hp Hs) in Hadv.
  destruct (Z.leb_spec (getTimestamp since) (prevTime f)) as [Hle | Hgt].
  - destruct (Z.eqb_spec (sequence f) MaxSequence) as [Hs' | Hs'].
    + destruct (Z.eqb_spec (prevTime f) (U64.modulus - 1)); [lia |].
      inversion Hadv. split; [lia |]. now split.
    + inversion Hadv. split; lia.
  - inversion Hadv. split; lia.
Qed.

Lemma NextId_timestamp_bounds_witness :
  exists id f',
    NextId 4000000000 (New 5000000000 3) = Done id f' /\
    Z.max (getTimestamp 4000000000) (prevTime (New 5000000000 3))
      <= prevTime f'
      <= Z.max (getTimestamp 4000000000) (prevTime (New 5000000000 3)) + 1 /\
    (prevTime f'
     = Z.max (getTimestamp 4000000000) (prevTime (New 5000000000 3)) + 1 ->
     sequence (New 5000000000 3) = MaxSequence /\ sequence f' = 0).
Proof.
  apply (NextId_timestamp_bounds 4000000000 (New 5000000000 3)).
  - apply reach_New.
  - vm_compute. reflexivity.
Defined.

(** ** Sequences of calls *)

Lemma frozen_state_nat (since : Duration) (k : nat) :
  forall f,
    wf f -> getTimestamp since <= prevTime f ->
    prevTime f + (sequence f + Z.of_nat k) / 8192 < U64.modulus ->
    exists ids f',
      NextIds (repeat since k) f = Done ids f' /\ wf f' /\
      List.length ids = k /\
      prevTime f' = prevTime f + (sequence f + Z.of_nat k) / 8192 /\
      sequence f' = (sequence f + Z.of_nat k) mod 8192.
Proof.
  induction k as [| k IH]; intros f Hwf Hnow Hroom;
    pose proof (wf_sequence f Hwf) as Hs;
    pose proof (wf_prevTime f Hwf) as Hp; constants.
  - exists [], f. cbn [Z.of_nat]. rewrite Z.add_0_r.
    split; [reflexivity |]. split; [exact Hwf |]. split; [reflexivity |].
    rewrite Z.div_small, Z.mod_small by lia. split; lia.
  - rewrite Nat2Z.inj_succ in *.
    assert (Hone : exists id f1,
               NextId since f = Done id f1 /\ wf f1 /\
               getTimestamp since <= prevTime f1 /\
               prevTime f1 * 8192 + sequence f1
               = prevTime f * 8192 + sequence f + 1).
    { destruct (Z.eq_dec (sequence f) MaxSequence) as [Hlast | Hmore].
      - destruct (NextId_rollover since f Hwf Hnow Hlast)
          as (id & f1 & Hrun & Hwf1 & _ & Hp1 & Hs1 & _).
        exists id, f1. split; [exact Hrun |]. split; [exact Hwf1 |].
        unfold U64.add, U64.wrap in Hp1. rewrite modulus_value in Hp1.
        unfold MaxSequence, SequenceBits in Hlast. simpl Z.shiftl in Hlast.
        rewrite Z.mod_small in Hp1 by (Z.div_mod_to_equations; lia).
        lia.
      - destruct (NextId_same_millisecond since f Hwf Hnow)
          as (id & f1 & Hrun & Hwf1 & _ & Hp1 & Hs1 & _);
          [unfold MaxSequence, SequenceBits in *; simpl Z.shiftl in *; lia |].
        exists id, f1. split; [exact Hrun |]. split; [exact Hwf1 |]. lia. }
    destruct Hone as (id & f1 & Hrun & Hwf1 & Hnow1 & Hsum).
    pose proof (wf_sequence f1 Hwf1) as Hs1. constants.
    destruct (IH f1 Hwf1 Hnow1) as (ids & f' & Hruns & Hwf' & Hlen & Hp' & Hs');
      [Z.div_mod_to_equations; lia |].
    exists (id :: ids), f'.
    split; [now apply (NextIds_cons since _ f f1) |].
    split; [exact Hwf' |]. split; [cbn [List.length]; now rewrite Hlen |].
    rewrite Hp', Hs'. split; Z.div_mod_to_equations; lia.
Qed.

(** X5: the state after [n] calls made while the clock is not ahead of the
    stored timestamp (a frozen or lagging clock): the calls consume the
    8192 sequence numbers of each millisecond in turn, so the pair
    (timestamp, sequence) read as the number [timestamp * 8192 + sequence]
    has advanced by exactly [n]. *)
Theorem frozen_clock_state (since : Duration) (n : Z) (f : Flake) :
  reachable f -> 0 <= n ->
  getTimestamp since <= prevTime f ->
  prevTime f + (sequence f + n) / 8192 < U64.modulus ->
  exists ids f',
    NextIds (frozen since n) f = Done ids f' /\
    Z.of_nat (List.length ids) = n /\
    prevTime f' = prevTime f + (sequence f + n) / 8192 /\
    sequence f' = (sequence f + n) mod 8192.
Proof.
  intros Hf Hn Hnow Hroom. unfold frozen.
  destruct (frozen_state_nat since (Z.to_nat n) f (reachable_wf f Hf) Hnow)
    as (ids & f' & Hrun & _ & Hlen & Hp & Hs); [now rewrite Z2Nat.id |].
  rewrite Z2Nat.id in Hp, Hs by exact Hn.
  exists ids, f'. rewrite Hlen, Z2Nat.id by exact Hn. now repeat split.
Qed.

Lemma frozen_clock_state_witness :
  exists ids f',
    NextIds (frozen 5000000000 20000) (New 5000000000 3) = Done ids f' /\
    Z.of_nat (List.length ids) = 20000 /\
    prevTime f'
    = prevTime (New 5000000000 3)
      + (sequence (New 5000000000 3) + 20000) / 8192 /\
    sequence f' = (sequence (New 5000000000 3) + 20000) mod 8192.
Proof.
  apply (frozen_clock_state 5000000000 20000 (New 5000000000 3)).
  - apply reach_New.
  - lia.
  - vm_compute. discriminate.
  - vm_compute. reflexivity.
Defined.

Lemma StronglySorted_lt_NoDup (l : list Z) :
  StronglySorted Z.lt l -> NoDup l.
Proof.
  induction 1 as [| a l _ IH Hall]; constructor; [| exact IH].
  intros Hin. rewrite Forall_forall in Hall. specialize (Hall a Hin). lia.
Qed.

(** X6: the identifiers returned by a sequence of calls on one generator are
    pairwise distinct, whatever the clock reads, as long as the stored
    timestamps stay inside the 41-bit window. *)
Theorem NextIds_distinct (clock : list Duration) (f : Flake) :
  reachable f ->
  Forall (fun t => t < Layout.window) (stamps clock f) ->
  exists ids f', NextIds clock f = Done ids f' /\ NoDup ids.
Proof.
  intros Hf Hstamps.
  destruct (sorted_run clock f (reachable_wf f Hf) Hstamps)
    as (ids & f' & Hrun & _ & Hsorted & _).
  exists ids, f'. split; [exact Hrun |]. now apply StronglySorted_lt_NoDup.
Qed.

Lemma NextIds_distinct_witness :
  exists ids f',
    NextIds [5000000000; 4000000000; 5000000000] (New 5000000000 3)
    = Done ids f' /\ NoDup ids.
Proof.
  apply (NextIds_distinct [5000000000; 4000000000; 5000000000]
                          (New 5000000000 3)).
  - apply reach_New.
  - assert (H : stamps [5000000000; 4000000000; 5000000000]
                       (New 5000000000 3) = [5000; 5000; 5000])
      by (vm_compute; reflexivity).
    rewrite H. repeat (constructor; [reflexivity |]). constructor.
Defined.

(** Every identifier of a run carries the worker id of the generator. *)
Lemma NextIds_worker_field (clock : list Duration) :
  forall f,
    wf f ->
    exists ids f',
      NextIds clock f = Done ids f' /\
      Forall (fun id => Layout.worker_field id = workerId f) ids.
Proof.
  induction clock as [| since rest IH]; intros f Hwf.
  - exists [], f. split; [reflexivity | constructor].
  - destruct (NextId_fields since f Hwf)
      as (id & f1 & Hrun & Hwf1 & _ & _ & _ & Hwk & _).
    destruct (NextId_wf since f Hwf) as (id' & f1' & Hrun' & _ & Hw).
    rewrite Hrun in Hrun'. inversion Hrun'; subst id' f1'; clear Hrun'.
    destruct (IH f1 Hwf1) as (ids & f' & Hruns & Hall).
    exists (id :: ids), f'.
    split; [now apply (NextIds_cons since _ f f1) |].
    constructor; [exact Hwk |]. now rewrite <- Hw.
Qed.

(** X7: two generators that store different worker ids never return the
    same identifier, whatever their clocks read and however many calls each
    serves; no condition on the timestamps is needed. *)
Theorem different_workers_disjoint (clock1 clock2 : list Duration)
        (f g : Flake) :
  reachable f -> reachable g -> workerId f <> workerId g ->
  exists ids1 f' ids2 g',
    NextIds clock1 f = Done ids1 f' /\
    NextIds clock2 g = Done ids2 g' /\
    forall id, In id ids1 -> ~ In id ids2.
Proof.
  intros Hf Hg Hne.
  destruct (NextIds_worker_field clock1 f (reachable_wf f Hf))
    as (ids1 & f' & Hrun1 & Hall1).
  destruct (NextIds_worker_field clock2 g (reachable_wf g Hg))
    as (ids2 & g' & Hrun2 & Hall2).
  exists ids1, f', ids2, g'. split; [exact Hrun1 |]. split; [exact Hrun2 |].
  intros id Hin1 Hin2. rewrite Forall_forall in Hall1, Hall2.
  apply Hne. now rewrite <- (Hall1 id Hin1), <- (Hall2 id Hin2).
Qed.

Lemma different_workers_disjoint_witness :
  exists ids1 f' ids2 g',
    NextIds [5000000000; 5000000000] (New 5000000000 3) = Done ids1 f' /\
    NextIds [5000000000] (New 5000000000 4) = Done ids2 g' /\
    forall id, In id ids1 -> ~ In id ids2.
Proof.
  apply (different_workers_disjoint [5000000000; 5000000000] [5000000000]
           (New 5000000000 3) (New 5000000000 4)).
  - apply reach_New.
  - apply reach_New.
  - vm_compute. discriminate.
Defined.

(** X8: identifiers sort by time across generators: an identifier whose
    timestamp is earlier is the smaller one, whatever the worker ids and
    sequences, as long as the later timestamp is inside the window. *)
Theorem earlier_timestamp_smaller_id (since1 since2 : Duration)
        (f g : Flake) :
  reachable f -> reachable g ->
  exists id1 f' id2 g',
    NextId since1 f = Done id1 f' /\
    NextId since2 g = Done id2 g' /\
    (prevTime f' < prevTime g' -> prevTime g' < Layout.window -> id1 < id2).
Proof.
  intros Hf Hg.
  pose proof (reachable_wf f Hf) as Hwf. pose proof (reachable_wf g Hg) as Hwg.
  destruct (NextId_step since1 f Hwf)
    as (id1 & f' & Hrun1 & Hwf' & _ & _ & _ & Hsum1).
  destruct (NextId_step since2 g Hwg)
    as (id2 & g' & Hrun2 & Hwg' & _ & _ & _ & Hsum2).
  exists id1, f', id2, g'. split; [exact Hrun1 |]. split; [exact Hrun2 |].
  intros Hlt Hwin.
  pose proof (wf_prevTime f' Hwf'). pose proof (wf_prevTime g' Hwg').
  pose proof (wf_sequence f' Hwf'). pose proof (wf_sequence g' Hwg').
  pose proof (wf_workerId f Hwf). pose proof (wf_workerId g Hwg).
  constants.
  rewrite Hsum1, Hsum2, !Z.mod_small by lia. lia.
Qed.

Lemma earlier_timestamp_smaller_id_witness :
  exists id1 f' id2 g',
    NextId 5000000000 (New 5000000000 1022) = Done id1 f' /\
    NextId 5001000000 (New 5000000000 0) = Done id2 g' /\
    (prevTime f' < prevTime g' -> prevTime g' < Layout.window -> id1 < id2).
Proof.
  apply (earlier_timestamp_smaller_id 5000000000 5001000000
           (New 5000000000 1022) (New 5000000000 0)); apply reach_New.
Defined.

(** ** Construction *)

(** X9: a worker id between 0 and 1022 is stored as given, and it is the
    worker field of every identifier the generator returns afterwards. *)
Theorem New_keeps_valid_worker_id (since : Duration) (w : Z)
        (clock : list Duration) :
  0 <= w < MaxWorkerId ->
  workerId (New since w) = w /\
  exists ids f',
    NextIds clock (New since w) = Done ids f' /\
    Forall (fun id => Layout.worker_field id = w) ids.
Proof.
  intros Hw.
  assert (Hid : workerId (New since w) = w)
    by (cbn [workerId New]; now apply Z.mod_small).
  split; [exact Hid |].
  destruct (NextIds_worker_field clock (New since w) (New_wf since w))
    as (ids & f' & Hrun & Hall).
  exists ids, f'. split; [exact Hrun |]. now rewrite <- Hid.
Qed.

Lemma New_keeps_valid_worker_id_witness :
  workerId (New 5000000000 1022) = 1022 /\
  exists ids f',
    NextIds [5000000000; 5001000000] (New 5000000000 1022) = Done ids f' /\
    Forall (fun id => Layout.worker_field id = 1022) ids.
Proof.
  apply (New_keeps_valid_worker_id 5000000000 1022 [5000000000; 5001000000]).
  vm_compute. split; [discriminate | reflexivity].
Defined.

(** ** Worker id from the host address *)

(** X10: when the first address of the host is an IPv4 address, given in
    its 4-byte form or as the IPv4-mapped 16-byte form [::ffff:a.b.c.d],
    [getHostId] returns its four octets read as a big-endian number, the
    same for both forms and below [2^32]. *)
Theorem getHostId_ipv4 (host : Host) (h : string)
        (addr : net.IP) (rest : list net.IP) (b0 b1 b2 b3 : Byte.byte) :
  os_Hostname host = Value h ->
  net_LookupIP host h = Value (addr :: rest) ->
  addr = [b0; b1; b2; b3] \/
  addr = repeat Byte.x00 10 ++ [Byte.xff; Byte.xff; b0; b1; b2; b3] ->
  getHostId host
  = Ok (binary.octet b0 * 2 ^ 24 + binary.octet b1 * 2 ^ 16
        + binary.octet b2 * 2 ^ 8 + binary.octet b3) /\
  0 <= binary.octet b0 * 2 ^ 24 + binary.octet b1 * 2 ^ 16
       + binary.octet b2 * 2 ^ 8 + binary.octet b3 < 2 ^ 32.
Proof.
  intros Hname Hlookup Haddr.
  pose proof (getHostId_cases host) as Hcases.
  rewrite Hname, Hlookup in Hcases.
  assert (H4 : net.To4 addr = [b0; b1; b2; b3])
    by (destruct Haddr as [-> | ->]; reflexivity).
  rewrite H4 in Hcases. split; [exact Hcases |].
  pose proof (octet_range b0). pose proof (octet_range b1).
  pose proof (octet_range b2). pose proof (octet_range b3). lia.
Qed.

Lemma getHostId_ipv4_witness :
  getHostId
    (mkHost (Value "node"%string)
            (fun _ => Value [repeat Byte.x00 10
                             ++ [Byte.xff; Byte.xff;
                                 Byte.x0a; Byte.x00; Byte.x00; Byte.x07]]))
  = Ok (binary.octet Byte.x0a * 2 ^ 24 + binary.octet Byte.x00 * 2 ^ 16
        + binary.octet Byte.x00 * 2 ^ 8 + binary.octet Byte.x07) /\
  0 <= binary.octet Byte.x0a * 2 ^ 24 + binary.octet Byte.x00 * 2 ^ 16
       + binary.octet Byte.x00 * 2 ^ 8 + binary.octet Byte.x07 < 2 ^ 32.
Proof.
  apply (getHostId_ipv4 _ "node"%string
           (repeat Byte.x00 10
            ++ [Byte.xff; Byte.xff; Byte.x0a; Byte.x00; Byte.x00; Byte.x07])
           []).
  - reflexivity.
  - reflexivity.
  - right. reflexivity.
Defined.

(** X11: only the first address returned by the lookup counts.  The result
    is the one obtained for that address alone; if it is neither 4 nor 16
    bytes long, or is 16 bytes long without the [ff ff] marker of an
    IPv4-mapped address, the result is the error "failed to resolve
    hostname" even when an IPv4 address follows in the list. *)
Theorem getHostId_first_address_only (host : Host) (h : string)
        (addr : net.IP) (rest : list net.IP) :
  os_Hostname host = Value h ->
  net_LookupIP host h = Value (addr :: rest) ->
  getHostId host = getHostId (mkHost (Value h) (fun _ => Value [addr])) /\
  (List.length addr <> 4%nat ->
   List.length addr <> 16%nat \/
   nth 10 addr Byte.x00 <> Byte.xff \/ nth 11 addr Byte.x00 <> Byte.xff ->
   getHostId host = Err "failed to resolve hostname"%string).
Proof.
  intros Hname Hlookup. split.
  { unfold getHostId. cbn [os_Hostname net_LookupIP].
    now rewrite Hname, Hlookup. }
  intros H4 Hrej.
  assert (Hnone : net.To4 addr = []).
  { unfold net.To4.
    destruct (Nat.eqb_spec (List.length addr) 4); [contradiction |].
    destruct (Nat.eqb_spec (List.length addr) 16) as [H16 | _];
      [| reflexivity].
    cbn [andb].
    destruct (forallb net.is_zero (firstn 10 addr)); [| reflexivity].
    cbn [andb].
    destruct (Byte.eqb (nth 10 addr Byte.x00) Byte.xff) eqn:E10;
      [| reflexivity].
    destruct (Byte.eqb (nth 11 addr Byte.x00) Byte.xff) eqn:E11;
      [| reflexivity].
    apply Byte.byte_dec_bl in E10, E11.
    destruct Hrej as [Hrej | [Hrej | Hrej]]; contradiction. }
  unfold getHostId. now rewrite Hname, Hlookup, Hnone.
Qed.

Lemma getHostId_first_address_only_witness :
  getHostId
    (mkHost (Value "node"%string)
            (fun _ => Value [repeat Byte.x00 15 ++ [Byte.x01];
                             [Byte.x0a; Byte.x00; Byte.x00; Byte.x07]]))
  = getHostId
      (mkHost (Value "node"%string)
              (fun _ => Value [repeat Byte.x00 15 ++ [Byte.x01]])) /\
  (List.length (repeat Byte.x00 15 ++ [Byte.x01]) <> 4%nat ->
   List.length (repeat Byte.x00 15 ++ [Byte.x01]) <> 16%nat \/
   nth 10 (repeat Byte.x00 15 ++ [Byte.x01]) Byte.x00 <> Byte.xff \/
   nth 11 (repeat Byte.x00 15 ++ [Byte.x01]) Byte.x00 <> Byte.xff ->
   getHostId
     (mkHost (Value "node"%string)
             (fun _ => Value [repeat Byte.x00 15 ++ [Byte.x01];
                              [Byte.x0a; Byte.x00; Byte.x00; Byte.x07]]))
   = Err "failed to resolve hostname"%string).
Proof.
  apply (getHostId_first_address_only _ "node"%string
           (repeat Byte.x00 15 ++ [Byte.x01])
           [[Byte.x0a; Byte.x00; Byte.x00; Byte.x07]]); reflexivity.
Defined.

(** ** Random worker id *)

Lemma BigEndian_Uint64_value (b0 b1 b2 b3 b4 b5 b6 b7 : Byte.byte)
      (rest : list Byte.byte) :
  binary.BigEndian_Uint64 (b0 :: b1 :: b2 :: b3 :: b4 :: b5 :: b6 :: b7 :: rest)
  = Some (binary.octet b0 * 2 ^ 56 + binary.octet b1 * 2 ^ 48
          + binary.octet b2 * 2 ^ 40 + binary.octet b3 * 2 ^ 32
          + binary.octet b4 * 2 ^ 24 + binary.octet b5 * 2 ^ 16
          + binary.octet b6 * 2 ^ 8 + binary.octet b7).
Proof.
  cbn [binary.BigEndian_Uint64].
  pose proof (octet_range b0). pose proof (octet_range b1).
  pose proof (octet_range b2). pose proof (octet_range b3).
  pose proof (octet_range b4). pose proof (octet_range b5).
  pose proof (octet_range b6). pose proof (octet_range b7).
  rewrite !Z.shiftl_mul_pow2 by lia.
  rewrite (Z.lor_comm (binary.octet b7)), lor_disjoint by lia.
  rewrite (Z.lor_comm _ (binary.octet b5 * 2 ^ 16)), lor_disjoint by lia.
  rewrite (Z.lor_comm _ (binary.octet b4 * 2 ^ 24)), lor_disjoint by lia.
  rewrite (Z.lor_comm _ (binary.octet b3 * 2 ^ 32)), lor_disjoint by lia.
  rewrite (Z.lor_comm _ (binary.octet b2 * 2 ^ 40)), lor_disjoint by lia.
  rewrite (Z.lor_comm _ (binary.octet b1 * 2 ^ 48)), lor_disjoint by lia.
  rewrite (Z.lor_comm _ (binary.octet b0 * 2 ^ 56)), lor_disjoint by lia.
  f_equal. lia.
Qed.

(** X12: when [rand.Read] fills the buffer, [getRandomId] returns the
    big-endian reading of the eight bytes, a [uint64] value, and
    [WithRandomId] returns [New] applied to it, so that the worker id stored
    is at most 1022.  When [Read] returns an error, [WithRandomId] returns
    that error and no generator; when the process ends during [Read],
    nothing is returned.  [WithRandomId] never panics. *)
Theorem WithRandomId_outcome (since : Duration) :
  (forall b0 b1 b2 b3 b4 b5 b6 b7,
      let v := binary.octet b0 * 2 ^ 56 + binary.octet b1 * 2 ^ 48
               + binary.octet b2 * 2 ^ 40 + binary.octet b3 * 2 ^ 32
               + binary.octet b4 * 2 ^ 24 + binary.octet b5 * 2 ^ 16
               + binary.octet b6 * 2 ^ 8 + binary.octet b7 in
      getRandomId (Filled b0 b1 b2 b3 b4 b5 b6 b7) = Returns (Ok v) /\
      U64.in_range v /\
      WithRandomId (Filled b0 b1 b2 b3 b4 b5 b6 b7) since
      = Returns (Ok (New since v)) /\
      0 <= workerId (New since v) < MaxWorkerId) /\
  (forall err, WithRandomId (Failed err) since = Returns (Err err)) /\
  WithRandomId Aborted since = Aborts /\
  (forall read, WithRandomId read since <> Returns Panic).
Proof.
  assert (Hfilled : forall b0 b1 b2 b3 b4 b5 b6 b7,
             getRandomId (Filled b0 b1 b2 b3 b4 b5 b6 b7)
             = Returns
                 (Ok (binary.octet b0 * 2 ^ 56 + binary.octet b1 * 2 ^ 48
                      + binary.octet b2 * 2 ^ 40 + binary.octet b3 * 2 ^ 32
                      + binary.octet b4 * 2 ^ 24 + binary.octet b5 * 2 ^ 16
                      + binary.octet b6 * 2 ^ 8 + binary.octet b7))).
  { intros. unfold getRandomId. now rewrite BigEndian_Uint64_value. }
  split.
  - intros b0 b1 b2 b3 b4 b5 b6 b7 v.
    split; [apply Hfilled |]. split.
    + pose proof (octet_range b0). pose proof (octet_range b1).
      pose proof (octet_range b2). pose proof (octet_range b3).
      pose proof (octet_range b4). pose proof (octet_range b5).
      pose proof (octet_range b6). pose proof (octet_range b7).
      subst v. constants. lia.
    + split.
      * unfold WithRandomId. now rewrite Hfilled.
      * cbn [workerId New]. apply Z.mod_pos_bound. reflexivity.
  - split; [reflexivity |]. split; [reflexivity |].
    intros [b0 b1 b2 b3 b4 b5 b6 b7 | err |]; unfold WithRandomId.
    + rewrite Hfilled. discriminate.
    + discriminate.
    + discriminate.
Qed.

(** ** Rendering *)

(** X13: different identifiers have different base-36 renderings. *)
Theorem String_injective (a b : Id) :
  U64.in_range a -> U64.in_range b -> a <> b -> String_ a <> String_ b.
Proof.
  intros Ha Hb Hne Heq.
  destruct (String_parses_back a Ha) as (sa & Hsa & Hpa & _).
  destruct (String_parses_back b Hb) as (sb & Hsb & Hpb & _).
  rewrite Hsa, Hsb in Heq. inversion Heq; subst sb.
  rewrite Hpa in Hpb. inversion Hpb. contradiction.
Qed.

Lemma String_injective_witness : String_ 35 <> String_ 36.
Proof.
  apply (String_injective 35 36).
  - vm_compute. split; [discriminate | reflexivity].
  - vm_compute. split; [discriminate | reflexivity].
  - discriminate.
Defined.

Lemma length_snoc (p : string) (c : ascii) :
  String.length (p ++ String c "") = S (String.length p).
Proof. induction p as [| c0 p IH]; cbn; [reflexivity | now rewrite IH]. Qed.

(** A value below [36^(k+1)] is written with at most [k+1] digits. *)
Lemma format_length (k : nat) :
  forall room u a,
    (k < room)%nat -> 0 <= u < 36 ^ Z.of_nat (S k) -> u < U64.modulus ->
    exists p,
      strconv.formatBits room u 36 a = Some (p ++ a)%string /\
      (1 <= String.length p <= S k)%nat.
Proof.
  induction k as [| k IH]; intros room u a Hroom Hu Hmax;
    (destruct room as [| room]; [lia |]); cbn [strconv.formatBits].
  - destruct (Z.geb_spec u 36); [cbn in Hu; lia |].
    destruct (digit_table u) as (c & Hget & _); [lia |]. rewrite Hget.
    exists (String c ""). split; [reflexivity | cbn; lia].
  - destruct (Z.geb_spec u 36).
    + rewrite format_digit by lia.
      destruct (digit_table (u mod 36)) as (c & Hget & _);
        [apply Z.mod_pos_bound; lia |].
      rewrite Hget.
      destruct (IH room (u / 36) (String c a)) as (p & Hfmt & Hlen).
      * lia.
      * rewrite Nat2Z.inj_succ, Z.pow_succ_r in Hu by lia.
        split; [apply Z.div_pos; lia | apply Z.div_lt_upper_bound; lia].
      * rewrite modulus_value in *. Z.div_mod_to_equations; lia.
      * exists (p ++ String c "")%string. rewrite append_snoc.
        split; [exact Hfmt |]. rewrite length_snoc. lia.
    + destruct (digit_table u) as (c & Hget & _); [lia |]. rewrite Hget.
      exists (String c ""). split; [reflexivity | cbn; lia].
Qed.

Lemma length_append_empty (p : string) :
  String.length (p ++ "") = String.length p.
Proof. induction p as [| c p IH]; cbn; [reflexivity | now rewrite IH]. Qed.

(** X14: the rendering of a 64-bit identifier is never empty and is at most
    13 characters long. *)
Theorem String_length (v : Id) :
  U64.in_range v ->
  exists s, String_ v = Some s /\ (1 <= String.length s <= 13)%nat.
Proof.
  intros [H0 Hmax].
  destruct (format_length 12 65 v "") as (p & Hfmt & Hlen).
  - lia.
  - split; [exact H0 |]. eapply Z.lt_trans; [exact Hmax | reflexivity].
  - exact Hmax.
  - exists (p ++ "")%string. split; [exact Hfmt |].
    now rewrite length_append_empty.
Qed.

Lemma String_length_witness :
  exists s,
    String_ 18446744073709551615 = Some s /\
    (1 <= String.length s <= 13)%nat.
Proof.
  apply (String_length 18446744073709551615).
  vm_compute. split; [discriminate | reflexivity].
Defined.

(** ** Worker ids of neighbouring addresses *)

(** X15: two worker ids supplied to [New] that differ by less than 1023,
    such as the addresses of two hosts of one small subnet, are stored as
    different worker ids, and the generators never return a common
    identifier. *)
Theorem nearby_worker_ids_distinct (since1 since2 : Duration) (a b : Z)
        (clock1 clock2 : list Duration) :
  0 <= a < b -> b - a < MaxWorkerId ->
  workerId (New since1 a) <> workerId (New since2 b) /\
  exists ids1 f' ids2 g',
    NextIds clock1 (New since1 a) = Done ids1 f' /\
    NextIds clock2 (New since2 b) = Done ids2 g' /\
    forall id, In id ids1 -> ~ In id ids2.
Proof.
  intros Hab Hnear.
  assert (Hne : workerId (New since1 a) <> workerId (New since2 b)).
  { cbn [workerId New]. unfold MaxWorkerId, HostBits in *.
    simpl Z.shiftl in *. Z.div_mod_to_equations. lia. }
  split; [exact Hne |].
  destruct (NextIds_worker_field clock1 (New since1 a) (New_wf _ _))
    as (ids1 & f' & Hrun1 & Hall1).
  destruct (NextIds_worker_field clock2 (New since2 b) (New_wf _ _))
    as (ids2 & g' & Hrun2 & Hall2).
  exists ids1, f', ids2, g'. split; [exact Hrun1 |]. split; [exact Hrun2 |].
  intros id Hin1 Hin2. rewrite Forall_forall in Hall1, Hall2.
  apply Hne. now rewrite <- (Hall1 id Hin1), <- (Hall2 id Hin2).
Qed.

Lemma nearby_worker_ids_distinct_witness :
  workerId (New 5000000000 167772167) <> workerId (New 5000000000 167772421)
  /\
  exists ids1 f' ids2 g',
    NextIds [5000000000] (New 5000000000 167772167) = Done ids1 f' /\
    NextIds [5000000000] (New 5000000000 167772421) = Done ids2 g' /\
    forall id, In id ids1 -> ~ In id ids2.
Proof.
  apply (nearby_worker_ids_distinct 5000000000 5000000000
           167772167 167772421 [5000000000] [5000000000]).
  - lia.
  - vm_compute. reflexivity.
Defined.
